(** * Smart text chunking, merging and length validation

    A shallow embedding of [v1_typescript/utils/textChunking.ts]:
    [chunkTextSmart], [mergeEditedChunks], [validateEditedLength] and
    [countWords], and of the use that [editManuscriptSmart] of
    [v1_typescript/services/geminiService.ts] makes of them.

    JavaScript strings are sequences of UTF-16 code units; they are modelled
    as lists of code units.  Character counts and offsets are JavaScript
    numbers holding integers; they are modelled in [Z], so that the
    arithmetic of the source on out-of-range arguments (negative sizes,
    offsets past the end) is kept as it is.  The quotient of the validator
    is an IEEE 754 binary64 operation and is modelled with primitive
    floats. *)

From Stdlib Require Import ZArith List Lia Bool.
From Stdlib Require Import Ascii String.
From Stdlib Require Import PrimFloat Uint63.
From Stdlib Require Import SpecFloat FloatOps FloatAxioms.
Import ListNotations.

Open Scope Z_scope.

(** ** JavaScript string primitives *)

Module JS.

Definition char := N.
Definition jsstring := list char.

(** [s.length] *)
Definition length (s : jsstring) : Z := Z.of_nat (List.length s).

(** Clamping of an offset to [0 .. s.length], as [substring] does. *)
Definition clamp (len x : Z) : Z := Z.max 0 (Z.min x len).

(** [s.substring(a, b)]: both offsets are clamped to the string, and they are
    swapped when the first is the larger one. *)
Definition substring (s : jsstring) (a b : Z) : jsstring :=
  let a' := clamp (length s) a in
  let b' := clamp (length s) b in
  let from := Z.min a' b' in
  let to := Z.max a' b' in
  firstn (Z.to_nat (to - from)) (skipn (Z.to_nat from) s).

(** [s.substring(a)] *)
Definition substringFrom (s : jsstring) (a : Z) : jsstring :=
  substring s a (length s).

(** [s.startsWith(p)] *)
Fixpoint startsWith (s p : jsstring) {struct p} : bool :=
  match p, s with
  | [], _ => true
  | _ :: _, [] => false
  | a :: p', b :: s' => N.eqb a b && startsWith s' p'
  end.

(** [s.endsWith(p)] *)
Definition endsWith (s p : jsstring) : bool :=
  startsWith (rev s) (rev p).

(** [s.indexOf(p)]: the first offset at which [p] occurs in [s], or -1.
    [indexOfFrom] carries the offset of the part of [s] still to scan. *)
Fixpoint indexOfFrom (i : Z) (s p : jsstring) : Z :=
  if startsWith s p then i
  else match s with
       | [] => -1
       | _ :: s' => indexOfFrom (i + 1) s' p
       end.

Definition indexOf (s p : jsstring) : Z := indexOfFrom 0 s p.

(** [s.lastIndexOf(p)]: the last offset at which [p] occurs in [s], or -1.
    [found] is the last occurrence met so far. *)
Fixpoint lastIndexOfFrom (i found : Z) (s p : jsstring) : Z :=
  let found' := if startsWith s p then i else found in
  match s with
  | [] => found'
  | _ :: s' => lastIndexOfFrom (i + 1) found' s' p
  end.

Definition lastIndexOf (s p : jsstring) : Z := lastIndexOfFrom 0 (-1) s p.

(** The value of [Math.max(...l)] on a list of integers: [-Infinity] on the
    empty list. *)
Inductive num : Type :=
| NegInfinity : num
| Num : Z -> num.

Definition Math_max (l : list Z) : num :=
  fold_left (fun m x => match m with
                        | NegInfinity => Num x
                        | Num y => Num (Z.max y x)
                        end) l NegInfinity.

(** [n > 0] together with the value of [n] when the test holds. *)
Definition positive_value (n : num) : option Z :=
  match n with
  | Num z => if 0 <? z then Some z else None
  | NegInfinity => None
  end.

(** White space as matched by [\s] and removed by [trim()]. *)
Definition isWhiteSpace (c : char) : bool :=
  match c with
  | 9 | 10 | 11 | 12 | 13 | 32 | 160 | 5760
  | 8232 | 8233 | 8239 | 8287 | 12288 | 65279 => true
  | _ => (8192 <=? c)%N && (c <=? 8202)%N
  end%N.

Fixpoint trimStart (s : jsstring) : jsstring :=
  match s with
  | c :: s' => if isWhiteSpace c then trimStart s' else s
  | [] => []
  end.

Definition trim (s : jsstring) : jsstring :=
  rev (trimStart (rev (trimStart s))).

(** [s.split(/\s+/)]: the pieces of [s] between maximal runs of white space.
    [cur] is the piece being read, in reverse; [inRun] tells that the
    previous code unit was white space. *)
Fixpoint splitWhiteSpaceFrom (cur : jsstring) (inRun : bool) (s : jsstring)
  : list jsstring :=
  match s with
  | [] => [rev cur]
  | c :: s' =>
      if isWhiteSpace c then
        if inRun then splitWhiteSpaceFrom cur true s'
        else rev cur :: splitWhiteSpaceFrom [] true s'
      else splitWhiteSpaceFrom (c :: cur) false s'
  end.

Definition splitWhiteSpace (s : jsstring) : list jsstring :=
  splitWhiteSpaceFrom [] false s.

(** A literal of ASCII characters as a JavaScript string. *)
Definition lit (s : String.string) : jsstring :=
  map N_of_ascii (list_ascii_of_string s).

End JS.

Import JS.

(** Code units used by the source. *)
Definition LF : char := 10%N.          (* '\n' *)
Definition SPACE : char := 32%N.       (* ' ' *)
Definition FULL_STOP : char := 46%N.   (* '.' *)
Definition EXCLAMATION : char := 33%N. (* '!' *)
Definition IDEOGRAPHIC_FULL_STOP : char := 12290%N. (* U+3002 *)
Definition ARABIC_QUESTION_MARK : char := 1567%N.   (* U+061F *)

(** ** The splitter *)

Record ChunkMetadata : Type := {
  index : Z;
  totalChunks : Z;
  startPosition : Z;
  endPosition : Z;
  overlapStart : jsstring;
  overlapEnd : jsstring
}.

Record SmartChunk : Type := {
  text : jsstring;
  metadata : ChunkMetadata
}.

Definition paragraphBreaks (searchText : jsstring) : list Z :=
  [ lastIndexOf searchText [LF; LF];
    lastIndexOf searchText [LF; SPACE; LF];
    lastIndexOf searchText [FULL_STOP; LF];
    lastIndexOf searchText [IDEOGRAPHIC_FULL_STOP; LF];
    lastIndexOf searchText [ARABIC_QUESTION_MARK; LF];
    lastIndexOf searchText [EXCLAMATION; LF] ].

Definition sentenceBreaks (searchText : jsstring) : list Z :=
  [ lastIndexOf searchText [FULL_STOP; SPACE];
    lastIndexOf searchText [IDEOGRAPHIC_FULL_STOP; SPACE];
    lastIndexOf searchText [ARABIC_QUESTION_MARK; SPACE];
    lastIndexOf searchText [EXCLAMATION; SPACE] ].

(** [Math.max(...breaks.filter(i => i > 0))] *)
Definition bestOf (breaks : list Z) : num :=
  Math_max (filter (fun i => 0 <? i) breaks).

(** The body of the [while] loop up to the choice of [chunkEnd]
    (lines 52-105). *)
Definition chooseChunkEnd (txt : jsstring) (maxChunkSize overlapSize : Z)
  (position : Z) : Z :=
  let remainingLength := length txt - position in
  let chunkEnd := position + maxChunkSize in
  if remainingLength <=? maxChunkSize + overlapSize then length txt
  else
    let searchStart := Z.max (position + maxChunkSize - 2000) position in
    let searchEnd := Z.min (position + maxChunkSize + 2000) (length txt) in
    let searchText := substring txt searchStart searchEnd in
    match positive_value (bestOf (paragraphBreaks searchText)) with
    | Some bestBreak => searchStart + bestBreak + 2
    | None =>
        match positive_value (bestOf (sentenceBreaks searchText)) with
        | Some bestSentence => searchStart + bestSentence + 2
        | None => chunkEnd
        end
    end.

(** The chunk pushed by one iteration (lines 107-122). *)
Definition makeChunk (txt : jsstring) (overlapSize position chunkEnd : Z)
  (previousOverlap : jsstring) (chunks : list SmartChunk) : SmartChunk :=
  let chunkText := substring txt position chunkEnd in
  let nextOverlap :=
    if chunkEnd <? length txt
    then substring txt chunkEnd (Z.min (chunkEnd + overlapSize) (length txt))
    else [] in
  {| text := chunkText;
     metadata := {| index := Z.of_nat (List.length chunks);
                    totalChunks := 0;
                    startPosition := position;
                    endPosition := chunkEnd;
                    overlapStart := previousOverlap;
                    overlapEnd := nextOverlap |} |}.

(** The [while] loop.  [fuel] bounds the number of iterations; [None] tells
    that the loop was still running when the fuel ran out. *)
Fixpoint chunkLoop (fuel : nat) (txt : jsstring)
  (maxChunkSize overlapSize : Z) (position : Z) (previousOverlap : jsstring)
  (chunks : list SmartChunk) : option (list SmartChunk) :=
  if position <? length txt then
    match fuel with
    | O => None
    | S fuel' =>
        let chunkEnd := chooseChunkEnd txt maxChunkSize overlapSize position in
        let chunk :=
          makeChunk txt overlapSize position chunkEnd previousOverlap chunks in
        let chunkText := text chunk in
        chunkLoop fuel' txt maxChunkSize overlapSize chunkEnd
          (substringFrom chunkText (Z.max 0 (length chunkText - overlapSize)))
          (chunks ++ [chunk])
    end
  else Some chunks.

(** [chunk.metadata.totalChunks = n] *)
Definition setTotalChunks (n : Z) (chunk : SmartChunk) : SmartChunk :=
  {| text := text chunk;
     metadata := {| index := index (metadata chunk);
                    totalChunks := n;
                    startPosition := startPosition (metadata chunk);
                    endPosition := endPosition (metadata chunk);
                    overlapStart := overlapStart (metadata chunk);
                    overlapEnd := overlapEnd (metadata chunk) |} |}.

Definition singleChunk (txt : jsstring) : SmartChunk :=
  {| text := txt;
     metadata := {| index := 0;
                    totalChunks := 1;
                    startPosition := 0;
                    endPosition := length txt;
                    overlapStart := [];
                    overlapEnd := [] |} |}.

Definition chunkTextSmart (fuel : nat) (txt : jsstring)
  (maxChunkSize overlapSize : Z) : option (list SmartChunk) :=
  if length txt <=? maxChunkSize then Some [singleChunk txt]
  else
    match chunkLoop fuel txt maxChunkSize overlapSize 0 [] [] with
    | Some chunks =>
        Some (map (setTotalChunks (Z.of_nat (List.length chunks))) chunks)
    | None => None
    end.

(** The texts of the chunks of a split, in index order; no text when the
    loop did not finish. *)
Definition chunkTexts (fuel : nat) (txt : jsstring)
  (maxChunkSize overlapSize : Z) : list jsstring :=
  match chunkTextSmart fuel txt maxChunkSize overlapSize with
  | Some chunks => map text chunks
  | None => []
  end.

(** ** The merger *)

(** The inner [for] loop (lines 156-164): [j] runs downwards while [j > 50];
    the value is that of [bestOverlap] when the loop is left. *)
Fixpoint overlapLoop (mergedEnd currentStart : jsstring) (j : nat) : Z :=
  match j with
  | O => 0
  | S j' =>
      if 50 <? Z.of_nat j then
        let snippet :=
          substringFrom mergedEnd (length mergedEnd - Z.of_nat j) in
        let index := indexOf currentStart snippet in
        if 0 <=? index then Z.of_nat j
        else overlapLoop mergedEnd currentStart j'
      else 0
  end.

(** [bestOverlap] after the inner loop (lines 150-164). *)
Definition bestOverlap (merged currentChunk : jsstring) : Z :=
  let overlapSize := 500 in
  let mergedEnd :=
    substringFrom merged (Z.max 0 (length merged - overlapSize)) in
  let currentStart :=
    substring currentChunk 0 (Z.min overlapSize (length currentChunk)) in
  overlapLoop mergedEnd currentStart
    (Z.to_nat (Z.min 200 (length mergedEnd))).

(** The test guarding [merged += ' '] (lines 169-171). *)
Definition insertsSpace (merged currentChunk : jsstring) : bool :=
  (negb (endsWith merged [LF]) && negb (startsWith currentChunk [LF]))
  && (negb (endsWith merged [SPACE]) && negb (startsWith currentChunk [SPACE])).

(** One iteration of the outer loop (lines 146-176): the new value of
    [merged]. *)
Definition mergeStep (merged currentChunk : jsstring) : jsstring :=
  let best := bestOverlap merged currentChunk in
  if best =? 0 then
    (if insertsSpace merged currentChunk then merged ++ [SPACE] else merged)
    ++ currentChunk
  else substring merged 0 (length merged - best) ++ currentChunk.

Definition mergeEditedChunks (editedChunks : list jsstring) : jsstring :=
  match editedChunks with
  | [] => []
  | [only] => only
  | first :: rest => fold_left mergeStep rest first
  end.

(** ** The length validator *)

(** The three message templates, with the values they interpolate. *)
Inductive Message : Type :=
| Shorter (difference : float) (originalLength editedLength : nat)
| Longer (difference : float) (originalLength editedLength : nat)
| Suitable (originalLength editedLength : nat) (ratio : float).

Record LengthReport : Type := {
  isValid : bool;
  ratio : float;
  message : Message
}.

(** An array length as a JavaScript number. *)
Definition toNumber (n : nat) : float :=
  PrimFloat.of_uint63 (Uint63.of_Z (Z.of_nat n)).

(** [text.trim().split(/\s+/).length] *)
Definition tokenCount (txt : jsstring) : nat :=
  List.length (splitWhiteSpace (trim txt)).

Definition validateEditedLength (originalText editedText : jsstring)
  (tolerancePercent : float) : LengthReport :=
  let originalLength := tokenCount originalText in
  let editedLength := tokenCount editedText in
  let ratio := (toNumber editedLength / toNumber originalLength * 100)%float in
  let difference := PrimFloat.abs (100 - ratio)%float in
  let isValid := (difference <=? tolerancePercent)%float in
  {| isValid := isValid;
     ratio := ratio;
     message :=
       if negb isValid then
         if (ratio <? 100 - tolerancePercent)%float
         then Shorter difference originalLength editedLength
         else Longer difference originalLength editedLength
       else Suitable originalLength editedLength ratio |}.

(** [countWords]: the tokens of length 0 are dropped. *)
Definition countWords (txt : jsstring) : nat :=
  List.length
    (filter (fun word => 0 <? length word) (splitWhiteSpace (trim txt))).

(** ** The caller: [editManuscriptSmart] of [services/geminiService.ts] *)

(** The outcome of the call to the editing agent for one chunk: the call
    throws, or it gives a response whose [text] is a string or is
    undefined. *)
Inductive AgentResponse : Type :=
| Thrown
| Response (responseText : option jsstring).

(** The text pushed on [editedChunks] for one chunk (lines 435-451):
    [response.text || chunks[i].text], replaced by the text of the chunk
    when its word count is further than 15 percent from the word count of
    the chunk, and the text of the chunk when the call throws. *)
Definition acceptEdit (chunkText : jsstring) (response : AgentResponse)
  : jsstring :=
  match response with
  | Thrown => chunkText
  | Response responseText =>
      let editedText :=
        match responseText with
        | Some (c :: s) => c :: s
        | Some [] | None => chunkText
        end in
      let originalWords := countWords chunkText in
      let editedWords := countWords editedText in
      let ratio :=
        (toNumber editedWords / toNumber originalWords * 100)%float in
      if (15 <? PrimFloat.abs (100 - ratio))%float then chunkText
      else editedText
  end.

(** The loop over the chunks (lines 404-453).  The editing agent is a
    parameter: it is given the rank of the chunk and the chunk, from which
    the prompt is built.  The reports of progress and the console output
    are left out. *)
Fixpoint editLoop (agent : nat -> SmartChunk -> AgentResponse) (i : nat)
  (chunks : list SmartChunk) : list jsstring :=
  match chunks with
  | [] => []
  | chunk :: rest =>
      acceptEdit (text chunk) (agent i chunk) :: editLoop agent (S i) rest
  end.

(** The text returned by [editManuscriptSmart] (lines 361, 462, 474), when
    a progress callback is given. *)
Definition editManuscriptSmart (fuel : nat)
  (agent : nat -> SmartChunk -> AgentResponse) (txt : jsstring)
  : option jsstring :=
  match chunkTextSmart fuel txt 75000 1000 with
  | Some chunks => Some (mergeEditedChunks (editLoop agent 0 chunks))
  | None => None
  end.

(** * Notions used in the statements *)

(** ** Occurrences *)

(** [p] occurs in [s] as a substring. *)
Definition Occurs (p s : jsstring) : Prop :=
  exists before after, s = before ++ p ++ after.

(** [p] occurs in [s] at offset [k]. *)
Definition occursAt (s p : jsstring) (k : Z) : bool :=
  (0 <=? k) && startsWith (skipn (Z.to_nat k) s) p.

(** The last [j] characters and the first [n] characters of a string. *)
Definition suffixOf (j : Z) (s : jsstring) : jsstring :=
  skipn (Z.to_nat (length s - j)) s.

Definition prefixOf (n : Z) (s : jsstring) : jsstring :=
  firstn (Z.to_nat n) s.

(** ** The search window of the splitter *)

(** The patterns searched by [paragraphBreaks] and by [sentenceBreaks]. *)
Definition paragraphPatterns : list jsstring :=
  [ [LF; LF]; [LF; SPACE; LF]; [FULL_STOP; LF];
    [IDEOGRAPHIC_FULL_STOP; LF]; [ARABIC_QUESTION_MARK; LF];
    [EXCLAMATION; LF] ].

Definition sentencePatterns : list jsstring :=
  [ [FULL_STOP; SPACE]; [IDEOGRAPHIC_FULL_STOP; SPACE];
    [ARABIC_QUESTION_MARK; SPACE]; [EXCLAMATION; SPACE] ].

(** The bounds of the search window of an iteration. *)
Definition searchStart (maxChunkSize position : Z) : Z :=
  Z.max (position + maxChunkSize - 2000) position.

Definition searchEnd (txt : jsstring) (maxChunkSize position : Z) : Z :=
  Z.min (position + maxChunkSize + 2000) (length txt).

(** No pattern of [patterns] lies in the text after offset [k] and before
    offset [stop]. *)
Definition noneAfter (txt : jsstring) (patterns : list jsstring) (k stop : Z)
  : Prop :=
  forall p k', In p patterns -> k < k' -> k' + length p <= stop ->
               occursAt txt p k' = false.

(** What the loop guarantees of each chunk it pushes. *)
Definition emitted (txt : jsstring) (maxChunkSize overlapSize : Z)
  (c : SmartChunk) : Prop :=
  text c <> []
  /\ startPosition (metadata c) < endPosition (metadata c)
  /\ length (text c) = endPosition (metadata c) - startPosition (metadata c)
  /\ length (text c) <= maxChunkSize + Z.max overlapSize 2000
  /\ endPosition (metadata c)
     = chooseChunkEnd txt maxChunkSize overlapSize (startPosition (metadata c))
  /\ 0 <= startPosition (metadata c).

(** The offsets at which the chunks of a split end; none when the loop did
    not finish. *)
Definition chunkEnds (fuel : nat) (txt : jsstring)
  (maxChunkSize overlapSize : Z) : list Z :=
  match chunkTextSmart fuel txt maxChunkSize overlapSize with
  | Some chunks => map (fun c => endPosition (metadata c)) chunks
  | None => []
  end.

(** The chunks pushed from [position] on form a chain: each chunk starts
    where the chunk before it ends, carries the tail of that chunk as
    [overlapStart] and the characters that follow it in the text as
    [overlapEnd], and has the next index; the last chunk ends with the
    text. *)
Fixpoint chained (txt : jsstring) (overlapSize : Z) (position : Z)
  (previousOverlap : jsstring) (i : Z) (chunks : list SmartChunk) : Prop :=
  match chunks with
  | [] => position = length txt
  | c :: rest =>
      index (metadata c) = i
      /\ startPosition (metadata c) = position
      /\ position <= endPosition (metadata c) <= length txt
      /\ text c = substring txt position (endPosition (metadata c))
      /\ overlapStart (metadata c) = previousOverlap
      /\ overlapEnd (metadata c)
         = substring txt (endPosition (metadata c))
             (Z.min (endPosition (metadata c) + overlapSize) (length txt))
      /\ chained txt overlapSize (endPosition (metadata c))
           (suffixOf (Z.min overlapSize (length (text c))) (text c))
           (i + 1) rest
  end.

(** The least number of characters of a chunk that is cut by the search:
    a break is taken at an offset of the window that is at least 1, and is
    followed by two characters. *)
Definition leastCut (maxChunkSize : Z) : Z :=
  Z.min maxChunkSize (Z.max (maxChunkSize - 2000) 0 + 3).

(** ** Overlaps at a boundary of the merger *)

(** The overlap test of the specification, with the width of the leading
    window of [current] as a parameter: the last [j] characters of the
    accumulator, for a [j] from 51 to min(200, available length), occur in
    the leading [min(window, len(current))] characters of [current]. *)
Definition overlapAt (window : Z) (accumulator current : jsstring) (j : Z)
  : Prop :=
  51 <= j <= Z.min 200 (length accumulator)
  /\ Occurs (suffixOf j accumulator)
       (prefixOf (Z.min window (length current)) current).

(** The concatenation made at a boundary where no overlap is detected
    (lines 167-176): a space is put between the two texts when neither the
    end of [merged] nor the start of [currentChunk] is a line feed or a
    space. *)
Definition spaced (merged currentChunk : jsstring) : jsstring :=
  (if insertsSpace merged currentChunk then merged ++ [SPACE] else merged)
  ++ currentChunk.

(** The sum of the lengths of the texts of a list. *)
Definition totalLength (l : list jsstring) : Z :=
  fold_right (fun s n => length s + n) 0 l.

(** A boundary is seamless when no overlap is detected at it and no space
    is inserted at it; a list of texts is seamless when each of its
    boundaries is, the accumulator being the texts merged so far. *)
Fixpoint seamlessFrom (merged : jsstring) (rest : list jsstring) : bool :=
  match rest with
  | [] => true
  | currentChunk :: rest' =>
      (bestOverlap merged currentChunk =? 0)
      && negb (insertsSpace merged currentChunk)
      && seamlessFrom (merged ++ currentChunk) rest'
  end.

Definition seamless (editedChunks : list jsstring) : bool :=
  match editedChunks with
  | [] => true
  | first :: rest => seamlessFrom first rest
  end.

(** ** Words *)

(** The number of characters of [s] that start a word: the characters that
    are not white space and that follow a white space, or that come first
    when [inWord] is false.  [inWord] tells that the character before [s]
    is not white space. *)
Fixpoint wordStarts (inWord : bool) (s : jsstring) : nat :=
  match s with
  | [] => 0
  | c :: s' =>
      if isWhiteSpace c then wordStarts false s'
      else ((if inWord then 0 else 1) + wordStarts true s')%nat
  end.

(** [inWord] after the characters of [s]. *)
Fixpoint inWordAfter (inWord : bool) (s : jsstring) : bool :=
  match s with
  | [] => inWord
  | c :: s' => inWordAfter (negb (isWhiteSpace c)) s'
  end.

(** The sum of the word counts of the texts of a list. *)
Definition totalWords (l : list jsstring) : nat :=
  fold_right (fun s n => (countWords s + n)%nat) 0%nat l.

(** ** Texts used as examples *)

(** ["ab.\ncd"]: a line end after a full stop. *)
Definition lineBreakText : jsstring := lit "ab." ++ [LF] ++ lit "cd".

(** ["ab\n\ncd"]: a paragraph break. *)
Definition paragraphBreakText : jsstring := lit "ab" ++ [LF; LF] ++ lit "cd".

(** ["a\n\nb.\ncd"]: a paragraph break, then a line end after a full
    stop. *)
Definition twoBreaksText : jsstring :=
  lit "a" ++ [LF; LF] ++ lit "b." ++ [LF] ++ lit "cd".

(** ["a.\nbc"] *)
Definition twoLinesText : jsstring := lit "a." ++ [LF] ++ lit "bc".

(** The text of the specification's example of a boundary:
    ["A"*90000 + "\n\n" + "B"*90000 + "\n\n" + "C"*90000]. *)
Definition paragraphsText : jsstring :=
  repeat 65%N (Z.to_nat 90000) ++ [LF; LF]
  ++ repeat 66%N (Z.to_nat 90000) ++ [LF; LF]
  ++ repeat 67%N (Z.to_nat 90000).

(** A synthetic Arabic-English text of 260000 characters: 13000 copies of
    a line of 20 characters, made of five Arabic letters, a space, two
    letters, a space, two letters, a space and ["X-Book. "]. *)
Definition mixedLine : jsstring :=
  [1605; 1585; 1581; 1576; 1575; 32; 1576; 1603; 32; 1601; 1610; 32]%N
  ++ lit "X-Book. ".

Definition mixedText : jsstring :=
  List.concat (repeat mixedLine (Z.to_nat 13000)).

(** The phrase of the specification's example of a merge, and a text of
    51 characters that ends with it. *)
Definition foxPhrase : jsstring := lit "the quick brown fox".

Definition foxTail : jsstring :=
  lit "and over the hills it ran, says " ++ foxPhrase.

(** A sentence of 55 characters. *)
Definition echoed : jsstring :=
  lit "the quick brown fox jumps over the lazy dog, then rests".

(** 60 times ["x"]; 300 times ["y"] followed by 60 times ["x"]. *)
Definition tailText : jsstring := repeat 120%N 60.

Definition lateEchoText : jsstring := repeat 121%N 300 ++ repeat 120%N 60.

(** * Facts about the string primitives *)

(** Goals about lengths, once [length] is unfolded to the length of lists. *)
Ltac lengths := unfold length in *; lia.

Section StringFacts.

Lemma length_nonneg (s : jsstring) : 0 <= length s.
Proof. unfold length; lia. Qed.

Lemma length_app (s t : jsstring) : length (s ++ t) = length s + length t.
Proof. unfold length; rewrite List.length_app; lia. Qed.

Lemma length_nil_inv (s : jsstring) : length s = 0 -> s = [].
Proof. destruct s; [reflexivity | unfold length; simpl; lia]. Qed.

Lemma skipn_app_exact (s t : jsstring) : skipn (List.length s) (s ++ t) = t.
Proof. induction s; simpl; auto. Qed.

Lemma firstn_app_exact (s t : jsstring) : firstn (List.length s) (s ++ t) = s.
Proof. induction s; simpl; [reflexivity | now f_equal]. Qed.

Lemma substring_in_range (s : jsstring) (a b : Z) :
  0 <= a <= b -> b <= length s ->
  substring s a b = firstn (Z.to_nat (b - a)) (skipn (Z.to_nat a) s).
Proof.
  intros Hab Hb. unfold substring, clamp.
  replace (Z.min (Z.max 0 (Z.min a (length s))) (Z.max 0 (Z.min b (length s))))
    with a by lia.
  replace (Z.max (Z.max 0 (Z.min a (length s))) (Z.max 0 (Z.min b (length s))))
    with b by lia.
  reflexivity.
Qed.

Lemma substring_length (s : jsstring) (a b : Z) :
  0 <= a <= b -> b <= length s -> length (substring s a b) = b - a.
Proof.
  intros Hab Hb. rewrite substring_in_range by assumption.
  unfold length in *. rewrite List.length_firstn, List.length_skipn. lia.
Qed.

Lemma substring_skipn (s : jsstring) (a b : Z) :
  0 <= a <= b -> b <= length s ->
  substring s a b ++ skipn (Z.to_nat b) s = skipn (Z.to_nat a) s.
Proof.
  intros Hab Hb. rewrite substring_in_range by assumption.
  replace (Z.to_nat b) with (Z.to_nat (b - a) + Z.to_nat a)%nat by lia.
  rewrite <- skipn_skipn. apply firstn_skipn.
Qed.

Lemma substring_prefix (s : jsstring) (b : Z) :
  0 <= b <= length s -> substring s 0 b = firstn (Z.to_nat b) s.
Proof.
  intros Hb. rewrite substring_in_range by lia.
  rewrite Z.sub_0_r. reflexivity.
Qed.

Lemma substringFrom_suffix (s : jsstring) (a : Z) :
  0 <= a <= length s -> substringFrom s a = skipn (Z.to_nat a) s.
Proof.
  intros Ha. unfold substringFrom. rewrite substring_in_range by lia.
  apply firstn_all2. unfold length in *. rewrite List.length_skipn. lia.
Qed.

Lemma startsWith_iff (s p : jsstring) :
  startsWith s p = true <-> exists rest, s = p ++ rest.
Proof.
  revert s. induction p as [| a p IH]; intros s; simpl.
  - split; [intros _; now exists s | reflexivity].
  - destruct s as [| b s]; simpl.
    + split; [discriminate | intros [rest H]; discriminate].
    + rewrite andb_true_iff, N.eqb_eq, IH. split.
      * intros [-> [rest ->]]. now exists rest.
      * intros [rest H]. injection H as -> ->. split; [reflexivity | now exists rest].
Qed.

Lemma startsWith_length (s p : jsstring) :
  startsWith s p = true -> length p <= length s.
Proof.
  intros H. apply startsWith_iff in H as [rest ->].
  rewrite length_app. pose proof (length_nonneg rest). lia.
Qed.

Lemma startsWith_firstn (s p : jsstring) (n : nat) :
  (List.length p <= n)%nat ->
  startsWith (firstn n s) p = startsWith s p.
Proof.
  revert s n. induction p as [| a p IH]; intros s n Hn; simpl.
  - now destruct (firstn n s).
  - destruct n as [| n]; [simpl in Hn; lia |].
    destruct s as [| b s]; simpl; [reflexivity |].
    rewrite IH by (simpl in Hn; lia). reflexivity.
Qed.

Lemma endsWith_iff (s p : jsstring) :
  endsWith s p = true <-> exists front, s = front ++ p.
Proof.
  unfold endsWith. rewrite startsWith_iff. split.
  - intros [rest H]. exists (rev rest).
    rewrite <- (rev_involutive s), H, rev_app_distr, rev_involutive. reflexivity.
  - intros [front ->]. exists (rev front). apply rev_app_distr.
Qed.

Lemma indexOfFrom_spec (s p : jsstring) (i : Z) :
  (indexOfFrom i s p = -1 /\ ~ Occurs p s)
  \/ (i <= indexOfFrom i s p /\ Occurs p s).
Proof.
  revert i. induction s as [| c s IH]; intros i; simpl.
  - destruct p as [| a p]; simpl.
    + right. split; [lia | now exists [], []].
    + left. split; [reflexivity |].
      intros (before & after & H). destruct before; discriminate.
  - destruct (startsWith (c :: s) p) eqn:E.
    + right. split; [lia |].
      apply startsWith_iff in E as [rest E]. exists [], rest. now rewrite E.
    + destruct (IH (i + 1)) as [[H1 H2] | [H1 H2]].
      * left. split; [assumption |].
        intros (before & after & H). destruct before as [| b before].
        -- simpl in H. assert (startsWith (c :: s) p = true) as E'
             by (apply startsWith_iff; now exists after).
           congruence.
        -- injection H as _ H. apply H2. now exists before, after.
      * right. split; [lia |].
        destruct H2 as (before & after & ->). now exists (c :: before), after.
Qed.

Lemma indexOf_found (s p : jsstring) : 0 <= indexOf s p <-> Occurs p s.
Proof.
  unfold indexOf. destruct (indexOfFrom_spec s p 0) as [[H1 H2] | [H1 H2]].
  - split; [lia | contradiction].
  - tauto.
Qed.

Lemma lastIndexOfFrom_spec (s p : jsstring) (i found : Z) :
  (lastIndexOfFrom i found s p = found
   /\ forall k, (k <= List.length s)%nat -> startsWith (skipn k s) p = false)
  \/ (exists k, (k <= List.length s)%nat
        /\ lastIndexOfFrom i found s p = i + Z.of_nat k
        /\ startsWith (skipn k s) p = true
        /\ forall k', (k' <= List.length s)%nat ->
             startsWith (skipn k' s) p = true -> (k' <= k)%nat).
Proof.
  revert i found. induction s as [| c s IH]; intros i found.
  - cbn [lastIndexOfFrom]. destruct (startsWith [] p) eqn:E.
    + right. exists 0%nat. simpl. repeat split; try lia; try assumption.
    + left. split; [reflexivity |]. intros k Hk. simpl in Hk.
      replace k with 0%nat by lia. assumption.
  - cbn [lastIndexOfFrom].
    destruct (IH (i + 1) (if startsWith (c :: s) p then i else found))
      as [[H1 H2] | (k & Hk & H1 & H2 & H3)].
    + destruct (startsWith (c :: s) p) eqn:E.
      * right. exists 0%nat. simpl. repeat split; try lia; try assumption.
        intros k' Hk' Hs. destruct k' as [| k']; [lia |].
        simpl in Hs. rewrite H2 in Hs by lia. discriminate.
      * left. split; [assumption |]. intros k Hk. simpl in Hk.
        destruct k as [| k]; [assumption |]. simpl. apply H2. lia.
    + right. exists (S k). simpl. repeat split; try lia; try assumption.
      intros k' Hk' Hs. destruct k' as [| k']; [lia |].
      simpl in Hs. apply H3 in Hs; lia.
Qed.

Lemma lastIndexOf_range (s p : jsstring) :
  lastIndexOf s p = -1
  \/ (0 <= lastIndexOf s p /\ lastIndexOf s p + length p <= length s).
Proof.
  unfold lastIndexOf.
  destruct (lastIndexOfFrom_spec s p 0 (-1)) as [[H _] | (k & Hk & H1 & H2 & _)].
  - now left.
  - right. rewrite H1. split; [lia |].
    apply startsWith_length in H2. unfold length in *.
    rewrite List.length_skipn in H2. lia.
Qed.

(** The offset returned by [lastIndexOf] when [p] occurs at offset [k] of
    [s] and at no later one. *)
Lemma lastIndexOf_at (s p : jsstring) (k : nat) :
  (k <= List.length s)%nat ->
  startsWith (skipn k s) p = true ->
  (forall k', (k < k')%nat -> (k' <= List.length s)%nat ->
     startsWith (skipn k' s) p = false) ->
  lastIndexOf s p = Z.of_nat k.
Proof.
  intros Hk Hs Hlast. unfold lastIndexOf.
  destruct (lastIndexOfFrom_spec s p 0 (-1)) as [[_ H] | (k0 & Hk0 & H1 & H2 & H3)].
  - rewrite H in Hs by assumption. discriminate.
  - rewrite H1. apply H3 in Hs; [| assumption].
    destruct (Nat.eq_dec k k0) as [-> | Hne]; [lia |].
    rewrite Hlast in H2 by lia. discriminate.
Qed.

Lemma lastIndexOf_upper (s p : jsstring) (k : nat) :
  (k <= List.length s)%nat ->
  (forall k', (k < k')%nat -> (k' <= List.length s)%nat ->
     startsWith (skipn k' s) p = false) ->
  lastIndexOf s p <= Z.of_nat k.
Proof.
  intros Hk Hlast. unfold lastIndexOf.
  destruct (lastIndexOfFrom_spec s p 0 (-1)) as [[-> _] | (k0 & Hk0 & H1 & H2 & H3)].
  - lia.
  - rewrite H1. destruct (Nat.le_gt_cases k0 k) as [Hle | Hgt]; [lia |].
    rewrite Hlast in H2 by lia. discriminate.
Qed.

End StringFacts.

(** * Facts about the splitter *)

Section SplitterFacts.

Lemma Math_max_from (l : list Z) (a : Z) :
  fold_left (fun m x => match m with
                        | NegInfinity => Num x
                        | Num y => Num (Z.max y x)
                        end) l (Num a)
  = Num (fold_left Z.max l a).
Proof. revert a. induction l as [| x l IH]; intros a; simpl; auto. Qed.

Lemma fold_max_spec (l : list Z) (a : Z) :
  a <= fold_left Z.max l a
  /\ (forall x, In x l -> x <= fold_left Z.max l a)
  /\ (fold_left Z.max l a = a \/ In (fold_left Z.max l a) l).
Proof.
  revert a. induction l as [| y l IH]; intros a; simpl.
  - repeat split; [lia | contradiction | now left].
  - destruct (IH (Z.max a y)) as (H1 & H2 & H3). repeat split.
    + lia.
    + intros x [<- | Hx]; [lia | auto].
    + destruct H3 as [H3 | H3]; [| now right; right].
      destruct (Z.max_spec a y) as [[_ E] | [_ E]].
      * right; left. rewrite H3. now rewrite E.
      * left. now rewrite H3.
Qed.

Lemma bestOf_some (l : list Z) (b : Z) :
  positive_value (bestOf l) = Some b ->
  In b l /\ 0 < b /\ forall x, In x l -> x <= b.
Proof.
  unfold bestOf, Math_max. intros H.
  destruct (filter (fun i => 0 <? i) l) as [| a t] eqn:E; [discriminate |].
  simpl in H. rewrite Math_max_from in H. simpl in H.
  destruct (0 <? fold_left Z.max t a) eqn:Hpos; [| discriminate].
  injection H as <-. apply Z.ltb_lt in Hpos.
  destruct (fold_max_spec t a) as (H1 & H2 & H3).
  assert (Hin : forall x, In x (a :: t) -> In x l /\ 0 < x).
  { intros x Hx. rewrite <- E in Hx. apply filter_In in Hx as [Hx Hp].
    apply Z.ltb_lt in Hp. auto. }
  repeat split.
  - destruct H3 as [-> | H3]; apply Hin; [now left | now right].
  - assumption.
  - intros x Hx. destruct (Z.ltb_spec 0 x) as [Hp | Hp]; [| lia].
    assert (In x (a :: t)) as [<- | Hx'].
    { rewrite <- E. apply filter_In. split; [assumption | now apply Z.ltb_lt]. }
    + assumption.
    + auto.
Qed.

Lemma bestOf_none (l : list Z) :
  positive_value (bestOf l) = None -> forall x, In x l -> x <= 0.
Proof.
  unfold bestOf, Math_max. intros H x Hx.
  destruct (Z.ltb_spec 0 x) as [Hp | Hp]; [| assumption].
  assert (Hf : In x (filter (fun i => 0 <? i) l))
    by (apply filter_In; split; [assumption | now apply Z.ltb_lt]).
  destruct (filter (fun i => 0 <? i) l) as [| a t] eqn:E; [contradiction |].
  simpl in H. rewrite Math_max_from in H. simpl in H.
  destruct (fold_max_spec t a) as (H1 & H2 & _).
  destruct (Z.ltb_spec 0 (fold_left Z.max t a)) as [_ | Hle]; [discriminate |].
  destruct Hf as [<- | Hf]; [lia |]. apply H2 in Hf. lia.
Qed.

(** The greatest positive entry is the one that is chosen. *)
Lemma bestOf_greatest (l : list Z) (b : Z) :
  In b l -> 0 < b -> (forall x, In x l -> x <= b) ->
  positive_value (bestOf l) = Some b.
Proof.
  intros Hin Hpos Hmax.
  destruct (positive_value (bestOf l)) as [b' |] eqn:E.
  - apply bestOf_some in E as (Hin' & _ & Hmax').
    apply Hmax in Hin'. apply Hmax' in Hin. f_equal. lia.
  - apply (bestOf_none _ E) in Hin. lia.
Qed.

Lemma paragraphBreaks_range (w : jsstring) (x : Z) :
  In x (paragraphBreaks w) -> x = -1 \/ (0 <= x /\ x + 2 <= length w).
Proof.
  unfold paragraphBreaks. intros H.
  repeat (destruct H as [<- | H];
          [match goal with
           | |- context [lastIndexOf w ?p] =>
               destruct (lastIndexOf_range w p) as [E | [E1 E2]];
               [now left | right; unfold length in *; simpl in E2; lia]
           end |]).
  contradiction.
Qed.

Lemma sentenceBreaks_range (w : jsstring) (x : Z) :
  In x (sentenceBreaks w) -> x = -1 \/ (0 <= x /\ x + 2 <= length w).
Proof.
  unfold sentenceBreaks. intros H.
  repeat (destruct H as [<- | H];
          [match goal with
           | |- context [lastIndexOf w ?p] =>
               destruct (lastIndexOf_range w p) as [E | [E1 E2]];
               [now left | right; unfold length in *; simpl in E2; lia]
           end |]).
  contradiction.
Qed.

Lemma chunkLoop_eq (fuel : nat) (txt : jsstring) (maxChunkSize overlapSize : Z)
  (position : Z) (previousOverlap : jsstring) (chunks : list SmartChunk) :
  chunkLoop fuel txt maxChunkSize overlapSize position previousOverlap chunks
  = if position <? length txt then
      match fuel with
      | O => None
      | S fuel' =>
          let chunkEnd :=
            chooseChunkEnd txt maxChunkSize overlapSize position in
          let chunk :=
            makeChunk txt overlapSize position chunkEnd previousOverlap chunks in
          chunkLoop fuel' txt maxChunkSize overlapSize chunkEnd
            (substringFrom (text chunk)
               (Z.max 0 (length (text chunk) - overlapSize)))
            (chunks ++ [chunk])
      end
    else Some chunks.
Proof. destruct fuel; reflexivity. Qed.

Lemma map_text_setTotalChunks (n : Z) (chunks : list SmartChunk) :
  map text (map (setTotalChunks n) chunks) = map text chunks.
Proof. rewrite map_map. reflexivity. Qed.

End SplitterFacts.

(** * The splitter on valid sizes *)

Section ValidSizes.

Variable txt : jsstring.
Variables maxChunkSize overlapSize : Z.
Hypothesis maxChunkSize_positive : 0 < maxChunkSize.
Hypothesis overlapSize_nonneg : 0 <= overlapSize.

(** The cut chosen by an iteration lies strictly after the current
    position, inside the text, and not further than the end of the
    look-ahead window or of the absorbed tail. *)
Lemma chooseChunkEnd_bounds (position : Z) :
  0 <= position < length txt ->
  position < chooseChunkEnd txt maxChunkSize overlapSize position <= length txt
  /\ chooseChunkEnd txt maxChunkSize overlapSize position - position
     <= maxChunkSize + Z.max overlapSize 2000.
Proof.
  intros Hpos. unfold chooseChunkEnd.
  destruct (Z.leb_spec (length txt - position) (maxChunkSize + overlapSize))
    as [Htail | Hlong]; [lia |].
  set (start := Z.max (position + maxChunkSize - 2000) position).
  set (stop := Z.min (position + maxChunkSize + 2000) (length txt)).
  assert (Hw : length (substring txt start stop) = stop - start)
    by (apply substring_length; lia).
  destruct (positive_value (bestOf (paragraphBreaks _))) as [b |] eqn:Eb.
  - apply bestOf_some in Eb as (Hin & Hb & _).
    apply paragraphBreaks_range in Hin as [-> | [_ Hin]]; lia.
  - destruct (positive_value (bestOf (sentenceBreaks _))) as [b |] eqn:Es.
    + apply bestOf_some in Es as (Hin & Hb & _).
      apply sentenceBreaks_range in Hin as [-> | [_ Hin]]; lia.
    + lia.
Qed.

(** The loop finishes within [length txt - position] iterations; the chunks
    it pushes tile the rest of the text. *)
Lemma chunkLoop_total (fuel : nat) :
  forall (position : Z) (previousOverlap : jsstring) (chunks : list SmartChunk),
    0 <= position <= length txt ->
    length txt - position <= Z.of_nat fuel ->
    exists pushed,
      chunkLoop fuel txt maxChunkSize overlapSize position previousOverlap chunks
      = Some (chunks ++ pushed)
      /\ List.concat (map text pushed) = skipn (Z.to_nat position) txt
      /\ Forall (emitted txt maxChunkSize overlapSize) pushed.
Proof.
  induction fuel as [| fuel IH];
    intros position previousOverlap chunks Hpos Hfuel;
    rewrite chunkLoop_eq;
    destruct (Z.ltb_spec position (length txt)) as [Hlt | Hge];
    try lia.
  - exists []. rewrite app_nil_r. repeat split; [| constructor].
    simpl. symmetry. apply skipn_all2. lengths.
  - cbv zeta.
    destruct (chooseChunkEnd_bounds position) as [Hce Hsize]; [lia |].
    set (chunkEnd := chooseChunkEnd txt maxChunkSize overlapSize position) in *.
    set (chunk := makeChunk txt overlapSize position chunkEnd previousOverlap chunks).
    destruct (IH chunkEnd
                (substringFrom (text chunk)
                   (Z.max 0 (length (text chunk) - overlapSize)))
                (chunks ++ [chunk])) as (pushed & Hrun & Hcat & Hall);
      try lia.
    exists (chunk :: pushed). rewrite Hrun, <- app_assoc. simpl.
    assert (Hlen : length (text chunk) = chunkEnd - position)
      by (apply substring_length; lia).
    assert (Hne : text chunk <> []).
    { intros E. rewrite E in Hlen. unfold length in Hlen. simpl in Hlen. lia. }
    repeat split.
    + rewrite Hcat. apply substring_skipn; lia.
    + constructor; [| assumption].
      repeat split; try assumption; try reflexivity; simpl; simpl in Hlen; lia.
  - exists []. rewrite app_nil_r. repeat split; [| constructor].
    simpl. symmetry. apply skipn_all2. lengths.
Qed.

(** The split of the text: it returns, its chunks tile the text, each chunk
    is bounded and ends at the cut chosen at its start, and the chunks of a
    non-empty text are non-empty. *)
Lemma chunkTextSmart_total (fuel : nat) :
  (List.length txt <= fuel)%nat ->
  exists chunks,
    chunkTextSmart fuel txt maxChunkSize overlapSize = Some chunks
    /\ List.concat (map text chunks) = txt
    /\ Forall (fun c => length (text c) <= maxChunkSize + Z.max overlapSize 2000)
         chunks
    /\ (txt <> [] ->
        Forall (fun c => text c <> []
                         /\ startPosition (metadata c) < endPosition (metadata c))
          chunks)
    /\ Forall (fun c => 0 <= startPosition (metadata c)
                        /\ endPosition (metadata c)
                           = chooseChunkEnd txt maxChunkSize overlapSize
                               (startPosition (metadata c))) chunks.
Proof.
  intros Hfuel. unfold chunkTextSmart.
  destruct (Z.leb_spec (length txt) maxChunkSize) as [Hshort | Hlong].
  - exists [singleChunk txt]. simpl. rewrite app_nil_r. repeat split.
    + constructor; [simpl; lia | constructor].
    + intros Hne. constructor; [| constructor]. split; [assumption |].
      simpl. pose proof (length_nonneg txt).
      destruct (Z.eq_dec (length txt) 0) as [E | E]; [| lia].
      apply length_nil_inv in E. contradiction.
    + constructor; [| constructor]. simpl. split; [lia |].
      unfold chooseChunkEnd.
      destruct (Z.leb_spec (length txt - 0) (maxChunkSize + overlapSize));
        [reflexivity | lia].
  - destruct (chunkLoop_total fuel 0 [] []) as (pushed & Hrun & Hcat & Hall).
    + pose proof (length_nonneg txt). lia.
    + lengths.
    + rewrite Hrun. simpl.
      exists (map (setTotalChunks (Z.of_nat (List.length pushed))) pushed).
      rewrite map_text_setTotalChunks. repeat split.
      * assumption.
      * apply Forall_map. eapply Forall_impl; [| exact Hall].
        intros c (_ & _ & _ & H & _). exact H.
      * intros _. apply Forall_map. eapply Forall_impl; [| exact Hall].
        intros c (H1 & H2 & _). simpl. auto.
      * apply Forall_map. eapply Forall_impl; [| exact Hall].
        intros c (_ & _ & _ & _ & H1 & H2). simpl. auto.
Qed.

End ValidSizes.

(** * The boundary search, in offsets of the text *)

Section BoundarySearch.

Lemma paragraphBreaks_map (w : jsstring) :
  paragraphBreaks w = map (lastIndexOf w) paragraphPatterns.
Proof. reflexivity. Qed.

Lemma sentenceBreaks_map (w : jsstring) :
  sentenceBreaks w = map (lastIndexOf w) sentencePatterns.
Proof. reflexivity. Qed.

(** Occurrences in a window of the text are the occurrences of the text
    that lie inside the window. *)
Lemma window_occurrence (txt p : jsstring) (a b : Z) (j : nat) :
  0 <= a <= b -> b <= length txt -> a + Z.of_nat j <= b ->
  startsWith (skipn j (substring txt a b)) p = true
  <-> (a + Z.of_nat j + length p <= b
       /\ startsWith (skipn (Z.to_nat (a + Z.of_nat j)) txt) p = true).
Proof.
  intros Hab Hb Hj. rewrite substring_in_range by assumption.
  rewrite skipn_firstn_comm, skipn_skipn.
  replace (j + Z.to_nat a)%nat with (Z.to_nat (a + Z.of_nat j)) by lia.
  split.
  - intros H. pose proof (startsWith_length _ _ H) as Hlen.
    assert (Hfit : a + Z.of_nat j + length p <= b).
    { unfold length in *. rewrite List.length_firstn in Hlen. lia. }
    split; [assumption |].
    rewrite startsWith_firstn in H; [assumption | unfold length in *; lia].
  - intros [Hfit H]. rewrite startsWith_firstn; [assumption |].
    unfold length in *. lia.
Qed.

(** The rightmost occurrence of a pattern in the window, at a positive
    offset of the window, is the break that is chosen. *)
Lemma best_break_at (txt : jsstring) (patterns : list jsstring) (p0 : jsstring)
  (a b k : Z) :
  0 <= a <= b -> b <= length txt ->
  In p0 patterns -> a < k -> k + length p0 <= b ->
  occursAt txt p0 k = true ->
  noneAfter txt patterns k b ->
  positive_value (bestOf (map (lastIndexOf (substring txt a b)) patterns))
  = Some (k - a).
Proof.
  intros Hab Hb Hin Hk Hfit Hocc Hnone.
  pose proof (length_nonneg p0) as Hp0.
  assert (Hwlen : List.length (substring txt a b) = Z.to_nat (b - a)).
  { pose proof (substring_length txt a b Hab Hb) as H.
    unfold length in H. lia. }
  assert (Hlater : forall p, In p patterns ->
            forall k', (Z.to_nat (k - a) < k')%nat ->
                       (k' <= List.length (substring txt a b))%nat ->
                       startsWith (skipn k' (substring txt a b)) p = false).
  { intros p Hp k' Hk' Hle.
    destruct (startsWith (skipn k' (substring txt a b)) p) eqn:E; [| easy].
    apply window_occurrence in E as [Hfit' E]; try assumption; [| lia].
    specialize (Hnone p (a + Z.of_nat k') Hp ltac:(lia) Hfit').
    unfold occursAt in Hnone. rewrite E in Hnone.
    destruct (Z.leb_spec 0 (a + Z.of_nat k')); [discriminate | lia]. }
  apply bestOf_greatest.
  - apply in_map_iff. exists p0. split; [| assumption].
    replace (k - a) with (Z.of_nat (Z.to_nat (k - a))) by lia.
    apply lastIndexOf_at.
    + lia.
    + apply window_occurrence; try assumption; [lia |].
      replace (a + Z.of_nat (Z.to_nat (k - a))) with k by lia.
      split; [assumption |].
      unfold occursAt in Hocc. apply andb_true_iff in Hocc. tauto.
    + apply Hlater; assumption.
  - lia.
  - intros x Hx. apply in_map_iff in Hx as (p & <- & Hp).
    replace (k - a) with (Z.of_nat (Z.to_nat (k - a))) by lia.
    apply lastIndexOf_upper; [lia |]. apply Hlater; assumption.
Qed.

(** No break is chosen when no pattern lies in the window after its first
    offset. *)
Lemma no_break (txt : jsstring) (patterns : list jsstring) (a b : Z) :
  0 <= a <= b -> b <= length txt ->
  noneAfter txt patterns a b ->
  positive_value (bestOf (map (lastIndexOf (substring txt a b)) patterns))
  = None.
Proof.
  intros Hab Hb Hnone.
  destruct (positive_value _) as [x |] eqn:E; [| reflexivity].
  apply bestOf_some in E as (Hin & Hpos & _).
  apply in_map_iff in Hin as (p & Hx & Hp).
  assert (Hle : lastIndexOf (substring txt a b) p <= Z.of_nat 0).
  { apply lastIndexOf_upper; [lia |]. intros k' Hk' Hle.
    destruct (startsWith (skipn k' (substring txt a b)) p) eqn:Es; [| easy].
    apply window_occurrence in Es as [Hfit Es]; try assumption;
      [| pose proof (substring_length txt a b Hab Hb); unfold length in *; lia].
    specialize (Hnone p (a + Z.of_nat k') Hp ltac:(lia) Hfit).
    unfold occursAt in Hnone. rewrite Es in Hnone.
    destruct (Z.leb_spec 0 (a + Z.of_nat k')); [discriminate | lia]. }
  lia.
Qed.

End BoundarySearch.

(** * Facts about the merger *)

Section MergerFacts.

Lemma overlapLoop_spec (mergedEnd currentStart : jsstring) (j0 : nat) :
  (overlapLoop mergedEnd currentStart j0 = 0
   /\ forall j, 50 < j <= Z.of_nat j0 ->
        indexOf currentStart (substringFrom mergedEnd (length mergedEnd - j)) < 0)
  \/ (50 < overlapLoop mergedEnd currentStart j0 <= Z.of_nat j0
      /\ 0 <= indexOf currentStart
                (substringFrom mergedEnd
                   (length mergedEnd - overlapLoop mergedEnd currentStart j0))
      /\ forall j, overlapLoop mergedEnd currentStart j0 < j <= Z.of_nat j0 ->
           indexOf currentStart
             (substringFrom mergedEnd (length mergedEnd - j)) < 0).
Proof.
  induction j0 as [| j0 IH].
  - left. simpl. split; [reflexivity | lia].
  - cbn [overlapLoop].
    destruct (Z.ltb_spec 50 (Z.of_nat (S j0))) as [Hgt | Hle].
    + cbv zeta.
      destruct (Z.leb_spec 0
                  (indexOf currentStart
                     (substringFrom mergedEnd
                        (length mergedEnd - Z.of_nat (S j0))))) as [Hfound | Hnot].
      * right. repeat split; lia.
      * destruct IH as [[H1 H2] | (H1 & H2 & H3)].
        -- left. split; [assumption |]. intros j Hj.
           destruct (Z.eq_dec j (Z.of_nat (S j0))) as [-> | Hne];
             [assumption | apply H2; lia].
        -- right. repeat split; try lia; try assumption. intros j Hj.
           destruct (Z.eq_dec j (Z.of_nat (S j0))) as [-> | Hne];
             [assumption | apply H3; lia].
    + left. split; [reflexivity | lia].
Qed.

(** The snippet of length [j] taken from the trailing window of [merged] is
    the suffix of length [j] of [merged]. *)
Lemma snippet_suffix (merged : jsstring) (j : Z) :
  0 <= j <= Z.min 200 (length merged) ->
  let mergedEnd := substringFrom merged (Z.max 0 (length merged - 500)) in
  substringFrom mergedEnd (length mergedEnd - j) = suffixOf j merged.
Proof.
  intros Hj mergedEnd. pose proof (length_nonneg merged) as Hlen.
  assert (Hend : mergedEnd
                 = skipn (Z.to_nat (Z.max 0 (length merged - 500))) merged)
    by (apply substringFrom_suffix; lia).
  assert (Hendlen : length mergedEnd = Z.min 500 (length merged)).
  { rewrite Hend. unfold length in *. rewrite List.length_skipn. lia. }
  rewrite substringFrom_suffix by lia.
  rewrite Hendlen, Hend, skipn_skipn. unfold suffixOf. f_equal. lia.
Qed.

Lemma mergedEnd_length (merged : jsstring) :
  length (substringFrom merged (Z.max 0 (length merged - 500)))
  = Z.min 500 (length merged).
Proof.
  pose proof (length_nonneg merged) as Hlen.
  rewrite substringFrom_suffix by lia.
  unfold length in *. rewrite List.length_skipn. lia.
Qed.

Lemma currentStart_prefix (currentChunk : jsstring) :
  substring currentChunk 0 (Z.min 500 (length currentChunk))
  = prefixOf (Z.min 500 (length currentChunk)) currentChunk.
Proof.
  pose proof (length_nonneg currentChunk).
  apply substring_prefix. lia.
Qed.

(** [bestOverlap] is the greatest length at which the overlap test with a
    leading window of 500 characters holds, and 0 when there is none. *)
Lemma bestOverlap_spec (merged currentChunk : jsstring) :
  (bestOverlap merged currentChunk = 0
   /\ forall j, ~ overlapAt 500 merged currentChunk j)
  \/ (overlapAt 500 merged currentChunk (bestOverlap merged currentChunk)
      /\ forall j, overlapAt 500 merged currentChunk j ->
                   j <= bestOverlap merged currentChunk).
Proof.
  unfold bestOverlap. cbv zeta.
  rewrite mergedEnd_length, currentStart_prefix.
  pose proof (length_nonneg merged) as Hlen.
  replace (Z.min 200 (Z.min 500 (length merged)))
    with (Z.min 200 (length merged)) by lia.
  set (mergedEnd := substringFrom merged (Z.max 0 (length merged - 500))).
  set (currentStart := prefixOf (Z.min 500 (length currentChunk)) currentChunk).
  set (j0 := Z.to_nat (Z.min 200 (length merged))).
  assert (Hsnip : forall j, 0 <= j <= Z.of_nat j0 ->
            substringFrom mergedEnd (length mergedEnd - j) = suffixOf j merged).
  { intros j Hj. apply snippet_suffix. lia. }
  destruct (overlapLoop_spec mergedEnd currentStart j0)
    as [[H1 H2] | (H1 & H2 & H3)].
  - left. split; [assumption |]. intros j [Hj Hocc].
    apply indexOf_found in Hocc.
    specialize (H2 j ltac:(lia)). rewrite Hsnip in H2 by lia. fold currentStart in Hocc. lia.
  - right. split.
    + split; [lia |]. apply indexOf_found. rewrite <- Hsnip by lia. assumption.
    + intros j [Hj Hocc]. apply indexOf_found in Hocc. fold currentStart in Hocc.
      destruct (Z.le_gt_cases j (overlapLoop mergedEnd currentStart j0))
        as [Hle | Hgt]; [assumption |].
      specialize (H3 j ltac:(lia)). rewrite Hsnip in H3 by lia. lia.
Qed.

Lemma bestOverlap_range (merged currentChunk : jsstring) :
  bestOverlap merged currentChunk = 0
  \/ 51 <= bestOverlap merged currentChunk <= Z.min 200 (length merged).
Proof.
  destruct (bestOverlap_spec merged currentChunk) as [[H _] | [[H _] _]];
    [now left | now right].
Qed.

(** The length of the accumulator after one boundary. *)
Lemma mergeStep_length (merged currentChunk : jsstring) :
  length merged + length currentChunk - 200
  <= length (mergeStep merged currentChunk)
  <= length merged + length currentChunk + 1.
Proof.
  unfold mergeStep. cbv zeta.
  pose proof (length_nonneg merged). pose proof (length_nonneg currentChunk).
  destruct (bestOverlap_range merged currentChunk) as [E | Hr].
  - rewrite E. simpl.
    destruct (insertsSpace merged currentChunk);
      rewrite ?length_app; unfold length; simpl; lia.
  - destruct (Z.eqb_spec (bestOverlap merged currentChunk) 0) as [E | _]; [lia |].
    rewrite length_app, substring_length by lia. lia.
Qed.

Lemma fold_mergeStep_length (rest : list jsstring) (merged : jsstring) :
  length merged + totalLength rest - 200 * Z.of_nat (List.length rest)
  <= length (fold_left mergeStep rest merged)
  <= length merged + totalLength rest + Z.of_nat (List.length rest).
Proof.
  revert merged. induction rest as [| cur rest IH]; intros merged.
  - simpl. lia.
  - cbn [fold_left totalLength fold_right List.length].
    specialize (IH (mergeStep merged cur)).
    pose proof (mergeStep_length merged cur). fold (totalLength rest). lia.
Qed.

Lemma mergeEditedChunks_fold (first : jsstring) (rest : list jsstring) :
  mergeEditedChunks (first :: rest) = fold_left mergeStep rest first.
Proof. destruct rest; reflexivity. Qed.

Lemma seamlessFrom_merge (rest : list jsstring) (merged : jsstring) :
  seamlessFrom merged rest = true ->
  fold_left mergeStep rest merged = merged ++ List.concat rest.
Proof.
  revert merged. induction rest as [| cur rest IH]; intros merged H; simpl.
  - now rewrite app_nil_r.
  - simpl in H. apply andb_true_iff in H as [H H3].
    apply andb_true_iff in H as [H1 H2].
    apply negb_true_iff in H2.
    assert (Hstep : mergeStep merged cur = merged ++ cur).
    { unfold mergeStep. cbv zeta. rewrite H1, H2. reflexivity. }
    rewrite Hstep, IH by assumption. now rewrite app_assoc.
Qed.

Lemma seamless_merge (editedChunks : list jsstring) :
  seamless editedChunks = true ->
  mergeEditedChunks editedChunks = List.concat editedChunks.
Proof.
  destruct editedChunks as [| first rest]; [reflexivity |].
  intros H. rewrite mergeEditedChunks_fold. now apply seamlessFrom_merge.
Qed.

End MergerFacts.

(** * The splitter: partition, sizes, termination *)

(** C1 -- Partition invariant.  For every text (the empty one and those
    shorter than [maxChunkSize] included) and every valid pair of sizes
    ([maxChunkSize > 0], [overlapSize >= 0]), [chunkTextSmart] returns, and
    the concatenation of the [text] fields of its chunks, in index order, is
    the text.  The loop needs at most [text.length] iterations. *)
Theorem partition_invariant (fuel : nat) (txt : jsstring)
  (maxChunkSize overlapSize : Z) :
  0 < maxChunkSize -> 0 <= overlapSize -> (List.length txt <= fuel)%nat ->
  exists chunks,
    chunkTextSmart fuel txt maxChunkSize overlapSize = Some chunks
    /\ List.concat (map text chunks) = txt.
Proof.
  intros Hmax Hov Hfuel.
  destruct (chunkTextSmart_total txt maxChunkSize overlapSize Hmax Hov fuel Hfuel)
    as (chunks & Hrun & Hcat & _).
  exists chunks. split; assumption.
Qed.

Lemma partition_invariant_witness :
  (exists chunks,
      chunkTextSmart 6 lineBreakText 1 0 = Some chunks
      /\ List.concat (map text chunks) = lineBreakText)
  /\ (exists chunks,
         chunkTextSmart 0 [] 75000 1000 = Some chunks
         /\ List.concat (map text chunks) = []).
Proof.
  split.
  - apply (partition_invariant 6 lineBreakText 1 0); [lia | lia | simpl; lia].
  - apply (partition_invariant 0 [] 75000 1000); [lia | lia | simpl; lia].
Defined.

(** C4 -- Chunk sizes, two texts on which the bound [maxChunkSize +
    overlapSize] fails.  With [maxChunkSize = 1] and [overlapSize = 0], the
    first chunk of ["ab.\ncd"] ends after the line end found in the
    look-ahead window and has 4 characters.  With [maxChunkSize = 80000]
    and [overlapSize = 1000], the first chunk of the mixed text of 260000
    characters ends after the last sentence end of the window
    [78000, 82000) and has 82000 characters. *)
Lemma chunk_size_bound_counterexample :
  (map length (chunkTexts 6 lineBreakText 1 0) = [4; 1; 1]
   /\ ~ 4 <= 1 + 0)
  /\ (map length (chunkTexts 4 mixedText 80000 1000)
      = [82000; 82000; 82000; 14000]
      /\ ~ 82000 <= 80000 + 1000).
Proof.
  split; (split; [vm_compute; reflexivity | lia]).
Qed.

(** C4 -- Chunk sizes, as the code has them.  For every text and every
    valid pair of sizes, no chunk has a [text] longer than [maxChunkSize +
    max(overlapSize, 2000)]: a cut at a break may lie up to 2000 characters
    after [position + maxChunkSize], and an absorbed tail has at most
    [maxChunkSize + overlapSize] characters. *)
Theorem chunk_size_bound (fuel : nat) (txt : jsstring)
  (maxChunkSize overlapSize : Z) :
  0 < maxChunkSize -> 0 <= overlapSize -> (List.length txt <= fuel)%nat ->
  exists chunks,
    chunkTextSmart fuel txt maxChunkSize overlapSize = Some chunks
    /\ Forall (fun c => length (text c)
                        <= maxChunkSize + Z.max overlapSize 2000) chunks.
Proof.
  intros Hmax Hov Hfuel.
  destruct (chunkTextSmart_total txt maxChunkSize overlapSize Hmax Hov fuel Hfuel)
    as (chunks & Hrun & _ & Hsize & _).
  exists chunks. split; assumption.
Qed.

Lemma chunk_size_bound_witness :
  exists chunks,
    chunkTextSmart 6 lineBreakText 1 0 = Some chunks
    /\ Forall (fun c => length (text c) <= 1 + Z.max 0 2000) chunks.
Proof.
  apply (chunk_size_bound 6 lineBreakText 1 0); [lia | lia | simpl; lia].
Defined.

(** C9 -- Termination of the splitter.  For every text, every
    [maxChunkSize >= 1] and every [overlapSize >= 0]: each iteration of the
    loop chooses a [chunkEnd] strictly after the current position and not
    after the end of the text; [chunkTextSmart] returns within
    [text.length] iterations; each chunk of a non-empty text is non-empty
    and ends strictly after its start. *)
Theorem splitter_terminates (txt : jsstring) (maxChunkSize overlapSize : Z) :
  1 <= maxChunkSize -> 0 <= overlapSize ->
  (forall position, 0 <= position < length txt ->
     position < chooseChunkEnd txt maxChunkSize overlapSize position
              <= length txt)
  /\ (forall fuel, (List.length txt <= fuel)%nat ->
        exists chunks,
          chunkTextSmart fuel txt maxChunkSize overlapSize = Some chunks
          /\ Forall (fun c => 0 <= startPosition (metadata c)
                              /\ endPosition (metadata c)
                                 = chooseChunkEnd txt maxChunkSize overlapSize
                                     (startPosition (metadata c))) chunks
          /\ (txt <> [] ->
              Forall (fun c => text c <> []
                               /\ startPosition (metadata c)
                                  < endPosition (metadata c)) chunks)).
Proof.
  intros Hmax Hov. split.
  - intros position Hpos.
    apply (chooseChunkEnd_bounds txt maxChunkSize overlapSize
             ltac:(lia) Hov position Hpos).
  - intros fuel Hfuel.
    destruct (chunkTextSmart_total txt maxChunkSize overlapSize
                ltac:(lia) Hov fuel Hfuel)
      as (chunks & Hrun & _ & _ & Hne & Hend).
    exists chunks. repeat split; assumption.
Qed.

Lemma splitter_terminates_witness :
  exists chunks, chunkTextSmart 6 lineBreakText 1 0 = Some chunks.
Proof.
  destruct (splitter_terminates lineBreakText 1 0) as [_ Hrun]; [lia | lia |].
  destruct (Hrun 6%nat) as (chunks & Hchunks & _); [simpl; lia |].
  exists chunks. exact Hchunks.
Defined.

(** * The splitter on sizes that are not valid *)

Lemma stuck_loop (fuel : nat) (previousOverlap : jsstring)
  (chunks : list SmartChunk) :
  chunkLoop fuel [97%N] 0 0 0 previousOverlap chunks = None.
Proof.
  revert previousOverlap chunks.
  induction fuel as [| fuel IH]; intros previousOverlap chunks;
    rewrite chunkLoop_eq.
  - reflexivity.
  - change (0 <? length [97%N]) with true. cbv iota zeta.
    change (chooseChunkEnd [97%N] 0 0 0) with 0. apply IH.
Qed.

(** C8 -- Invalid sizes, two calls with [maxChunkSize = 0] that are not
    rejected: on the empty text the call returns one chunk of length zero;
    on the text ["a"] the loop pushes chunks of length zero and never
    finishes, whatever the number of iterations allowed. *)
Lemma invalid_size_counterexample :
  chunkTextSmart 0 [] 0 0 = Some [singleChunk []]
  /\ length (text (singleChunk [])) = 0
  /\ (forall fuel, chunkTextSmart fuel [97%N] 0 0 = None).
Proof.
  repeat split.
  intros fuel. unfold chunkTextSmart.
  change (length [97%N] <=? 0) with false. cbv iota.
  now rewrite stuck_loop.
Qed.

(** C8 -- Invalid sizes, as the code has them.  [chunkTextSmart] makes no
    check of [maxChunkSize].  For [maxChunkSize <= 0] and a text of at most
    [maxChunkSize + overlapSize] characters the call returns as for valid
    sizes: one chunk holding the whole text (of length zero for the empty
    text and [maxChunkSize = 0]), and no chunk at all for the empty text and
    [maxChunkSize < 0]. *)
Theorem invalid_size_not_rejected (fuel : nat) (txt : jsstring)
  (maxChunkSize overlapSize : Z) :
  maxChunkSize <= 0 -> length txt <= maxChunkSize + overlapSize ->
  (1 <= fuel)%nat ->
  chunkTextSmart fuel txt maxChunkSize overlapSize
  = Some (match txt with
          | [] => if maxChunkSize <? 0 then [] else [singleChunk []]
          | _ :: _ => [singleChunk txt]
          end).
Proof.
  intros Hmax Hlen Hfuel. unfold chunkTextSmart.
  destruct txt as [| c txt].
  - change (length []) with 0.
    destruct (Z.leb_spec 0 maxChunkSize) as [H0 | Hneg];
      destruct (Z.ltb_spec maxChunkSize 0); try lia; [reflexivity |].
    rewrite chunkLoop_eq. reflexivity.
  - set (s := c :: txt) in *.
    assert (Hpos : 0 < length s) by (unfold length, s; simpl; lia).
    destruct (Z.leb_spec (length s) maxChunkSize) as [H | _]; [lia |].
    destruct fuel as [| fuel]; [lia |].
    rewrite chunkLoop_eq.
    destruct (Z.ltb_spec 0 (length s)) as [_ | H]; [| lia].
    cbv zeta.
    assert (Hend : chooseChunkEnd s maxChunkSize overlapSize 0 = length s).
    { unfold chooseChunkEnd.
      destruct (Z.leb_spec (length s - 0) (maxChunkSize + overlapSize));
        [reflexivity | lia]. }
    rewrite Hend, chunkLoop_eq, Z.ltb_irrefl. simpl.
    unfold makeChunk, setTotalChunks, singleChunk. simpl.
    rewrite Z.ltb_irrefl.
    assert (Hsub : substring s 0 (length s) = s).
    { rewrite substring_prefix by lia. apply firstn_all2.
      unfold length. lia. }
    rewrite Hsub. reflexivity.
Qed.

Lemma invalid_size_not_rejected_witness :
  chunkTextSmart 1 [97%N] 0 1 = Some [singleChunk [97%N]]
  /\ chunkTextSmart 1 [] 0 0 = Some [singleChunk []]
  /\ chunkTextSmart 1 [] (-1) 1 = Some [].
Proof.
  split; [| split].
  - apply (invalid_size_not_rejected 1 [97%N] 0 1);
      [lia | unfold length; simpl; lia | lia].
  - apply (invalid_size_not_rejected 1 [] 0 0);
      [lia | unfold length; simpl; lia | lia].
  - apply (invalid_size_not_rejected 1 [] (-1) 1);
      [lia | unfold length; simpl; lia | lia].
Defined.

(** * The splitter: choice of the boundary *)

(** C5 -- Boundary preference, texts on which a paragraph break is not
    where the cut is made.  The example of the specification has its first
    paragraph break at offset 90000; with [maxChunkSize = 95000] and
    [overlapSize = 1000] the first search window is [93000, 97000) and
    holds no break, so the first cut is the hard cut at 95000, and no chunk
    ends at the break (offset 90000 or 90002).  In ["ab\n\ncd"] with
    [maxChunkSize = 1] and [overlapSize = 5] the break lies in the window,
    but the six characters are an absorbed tail and no cut is made.  In
    ["a\n\nb.\ncd"] with [maxChunkSize = 1] and [overlapSize = 0] the cut
    is made after the later line end, at 6, not after the paragraph break
    at 1. *)
Lemma boundary_preference_counterexample :
  (length paragraphsText = 270004
   /\ occursAt paragraphsText [LF; LF] 90000 = true
   /\ searchStart 95000 0 = 93000
   /\ searchEnd paragraphsText 95000 0 = 97000
   /\ chunkEnds 3 paragraphsText 95000 1000 = [95000; 190000; 270004])
  /\ (occursAt paragraphBreakText [LF; LF] 2 = true
      /\ chunkEnds 6 paragraphBreakText 1 5 = [6])
  /\ (occursAt twoBreaksText [LF; LF] 1 = true
      /\ chunkEnds 8 twoBreaksText 1 0 = [6; 7; 8]).
Proof.
  split; [| split; split; vm_compute; reflexivity].
  split; [vm_compute; reflexivity |].
  split; [vm_compute; reflexivity |].
  split; [vm_compute; reflexivity |].
  split; vm_compute; reflexivity.
Qed.

(** C5 -- Boundary preference, as the code has it.  Every chunk ends at the
    cut chosen at its start, [chooseChunkEnd].  At a position from which
    more than [maxChunkSize + overlapSize] characters remain, the search
    window is [searchStart, searchEnd) = [max(position + maxChunkSize -
    2000, position), min(position + maxChunkSize + 2000, text.length)),
    and:
    - a paragraph break ["\n\n"], or another pattern of the paragraph
      class, at an offset [k] of the text, after the first offset of the
      window and wholly inside it, with no pattern of the class after it in
      the window, is where the cut is made: [chunkEnd = k + 2], which for
      ["\n\n"] is the offset right after the break;
    - with no paragraph-class pattern in the window after its first offset,
      a sentence end at [k], the last one in the window, gives
      [chunkEnd = k + 2];
    - with no pattern of either class, the cut is the hard one,
      [position + maxChunkSize]. *)
Theorem boundary_preference (txt : jsstring) (maxChunkSize overlapSize : Z) :
  0 < maxChunkSize -> 0 <= overlapSize ->
  (forall fuel, (List.length txt <= fuel)%nat ->
     exists chunks,
       chunkTextSmart fuel txt maxChunkSize overlapSize = Some chunks
       /\ Forall (fun c => 0 <= startPosition (metadata c)
                           /\ endPosition (metadata c)
                              = chooseChunkEnd txt maxChunkSize overlapSize
                                  (startPosition (metadata c))) chunks)
  /\ (forall position,
        0 <= position ->
        maxChunkSize + overlapSize < length txt - position ->
        let start := searchStart maxChunkSize position in
        let stop := searchEnd txt maxChunkSize position in
        (forall p k,
            In p paragraphPatterns ->
            start < k -> k + length p <= stop ->
            occursAt txt p k = true ->
            noneAfter txt paragraphPatterns k stop ->
            chooseChunkEnd txt maxChunkSize overlapSize position = k + 2)
        /\ (forall p k,
               noneAfter txt paragraphPatterns start stop ->
               In p sentencePatterns ->
               start < k -> k + 2 <= stop ->
               occursAt txt p k = true ->
               noneAfter txt sentencePatterns k stop ->
               chooseChunkEnd txt maxChunkSize overlapSize position = k + 2)
        /\ (noneAfter txt paragraphPatterns start stop ->
            noneAfter txt sentencePatterns start stop ->
            chooseChunkEnd txt maxChunkSize overlapSize position
            = position + maxChunkSize)).
Proof.
  intros Hmax Hov. split.
  - intros fuel Hfuel.
    destruct (chunkTextSmart_total txt maxChunkSize overlapSize
                Hmax Hov fuel Hfuel) as (chunks & Hrun & _ & _ & _ & Hend).
    exists chunks. split; assumption.
  - intros position Hpos Hlong start stop.
    assert (Hwin : 0 <= start <= stop /\ stop <= length txt)
      by (unfold start, stop, searchStart, searchEnd; lia).
    destruct Hwin as [Hss Hse].
    assert (Hchoose :
      chooseChunkEnd txt maxChunkSize overlapSize position
      = match positive_value
                (bestOf (map (lastIndexOf (substring txt start stop))
                           paragraphPatterns)) with
        | Some bestBreak => start + bestBreak + 2
        | None =>
            match positive_value
                    (bestOf (map (lastIndexOf (substring txt start stop))
                               sentencePatterns)) with
            | Some bestSentence => start + bestSentence + 2
            | None => position + maxChunkSize
            end
        end).
    { unfold chooseChunkEnd.
      destruct (Z.leb_spec (length txt - position)
                  (maxChunkSize + overlapSize)); [lia | reflexivity]. }
    rewrite Hchoose. repeat split.
    + intros p k Hp Hk Hfit Hocc Hnone.
      rewrite (best_break_at txt paragraphPatterns p start stop k);
        try assumption; lia.
    + intros p k Hpar Hp Hk Hfit Hocc Hnone.
      rewrite (no_break txt paragraphPatterns start stop) by assumption.
      rewrite (best_break_at txt sentencePatterns p start stop k);
        try assumption; [lia |].
      assert (length p = 2); [| lia].
      unfold sentencePatterns in Hp. simpl in Hp.
      repeat (destruct Hp as [<- | Hp]; [reflexivity |]). contradiction.
    + intros Hpar Hsen.
      rewrite (no_break txt paragraphPatterns start stop) by assumption.
      rewrite (no_break txt sentencePatterns start stop) by assumption.
      reflexivity.
Qed.

Lemma boundary_preference_witness :
  chooseChunkEnd paragraphBreakText 1 0 0 = 2 + 2.
Proof.
  destruct (boundary_preference paragraphBreakText 1 0) as [_ Hrules];
    [lia | lia |].
  destruct (Hrules 0) as [Hparagraph _];
    [lia | unfold length; simpl; lia |].
  apply (Hparagraph [LF; LF]).
  - now left.
  - unfold searchStart. lia.
  - unfold searchEnd, length. simpl. lia.
  - reflexivity.
  - intros p k' Hp Hlt Hfit.
    assert (Hk' : k' = 3 \/ k' = 4).
    { assert (2 <= length p).
      { simpl in Hp.
        repeat (destruct Hp as [<- | Hp]; [unfold length; simpl; lia |]).
        contradiction. }
      unfold searchEnd, length in *. simpl in Hfit. lia. }
    simpl in Hp.
    destruct Hk' as [-> | ->];
      repeat (destruct Hp as [<- | Hp]; [reflexivity |]); contradiction.
Defined.

(** * The merger *)

(** C2 -- Round trip, two texts on which it fails.  ["ab"] with
    [maxChunkSize = 1] is split at hard cuts into ["a"] and ["b"], and the
    merge inserts a space.  The mixed text of 260000 characters with
    [maxChunkSize = 80000], [overlapSize = 1000] is split into four chunks;
    at each of the three boundaries the last 200 characters merged so far
    occur in the head of the next chunk and are removed, so the merge has
    259400 characters. *)
Lemma round_trip_counterexample :
  (chunkTexts 2 (lit "ab") 1 0 = [lit "a"; lit "b"]
   /\ mergeEditedChunks (chunkTexts 2 (lit "ab") 1 0) = lit "a b")
  /\ (length mixedText = 260000
      /\ map length (chunkTexts 4 mixedText 80000 1000)
         = [82000; 82000; 82000; 14000]
      /\ length (mergeEditedChunks (chunkTexts 4 mixedText 80000 1000))
         = 259400).
Proof.
  split; [split; reflexivity |].
  split; [vm_compute; reflexivity |].
  split; vm_compute; reflexivity.
Qed.

(** C2 -- Round trip, as the code has it.  For every text and every valid
    pair of sizes, merging the unmodified texts of the chunks gives back
    the text whenever the chunk texts are seamless: at each boundary no
    suffix of 51 to 200 characters of the text merged so far occurs in the
    first 500 characters of the next chunk, and the text merged so far ends
    with, or the next chunk starts with, a line feed or a space. *)
Theorem round_trip (fuel : nat) (txt : jsstring)
  (maxChunkSize overlapSize : Z) :
  0 < maxChunkSize -> 0 <= overlapSize -> (List.length txt <= fuel)%nat ->
  seamless (chunkTexts fuel txt maxChunkSize overlapSize) = true ->
  exists chunks,
    chunkTextSmart fuel txt maxChunkSize overlapSize = Some chunks
    /\ mergeEditedChunks (map text chunks) = txt.
Proof.
  intros Hmax Hov Hfuel Hseamless.
  destruct (chunkTextSmart_total txt maxChunkSize overlapSize Hmax Hov fuel Hfuel)
    as (chunks & Hrun & Hcat & _).
  exists chunks. split; [assumption |].
  unfold chunkTexts in Hseamless. rewrite Hrun in Hseamless.
  rewrite seamless_merge by assumption. assumption.
Qed.

Lemma round_trip_witness :
  exists chunks,
    chunkTextSmart 5 twoLinesText 2 1 = Some chunks
    /\ mergeEditedChunks (map text chunks) = twoLinesText.
Proof.
  apply (round_trip 5 twoLinesText 2 1);
    [lia | lia | simpl; lia | vm_compute; reflexivity].
Defined.

(** C6 -- De-duplication, the phrase of the specification.  The
    accumulator ["the quick brown fox"] has 19 characters, fewer than the
    51 an overlap needs: no overlap is detected, a space is inserted, and
    the phrase stands twice in a row in the merge.  When the accumulator is
    the phrase followed by 51 characters that end with the phrase, and
    [current] is ["the quick brown fox jumps "] followed by the same 51
    characters, these 51 characters are cut off the accumulator and the
    merge starts with the phrase twice, with nothing in between. *)
Lemma merge_dedup_counterexample :
  (bestOverlap foxPhrase (foxPhrase ++ lit " jumps") = 0
   /\ mergeEditedChunks [foxPhrase; foxPhrase ++ lit " jumps"]
      = foxPhrase ++ [SPACE] ++ foxPhrase ++ lit " jumps")
  /\ (endsWith (foxPhrase ++ foxTail) foxPhrase = true
      /\ bestOverlap (foxPhrase ++ foxTail)
           (foxPhrase ++ lit " jumps " ++ foxTail) = 51
      /\ mergeEditedChunks
           [foxPhrase ++ foxTail; foxPhrase ++ lit " jumps " ++ foxTail]
         = foxPhrase ++ foxPhrase ++ lit " jumps " ++ foxTail).
Proof.
  split; [split; vm_compute; reflexivity |].
  split; [vm_compute; reflexivity |].
  split; vm_compute; reflexivity.
Qed.

(** C6 -- De-duplication, as the code has it.  When the accumulator ends
    with, and [current] starts with, the same text [o] of 51 to 200
    characters, and no longer suffix of the accumulator passes the overlap
    test, the merge of the two holds [o] once: it is the accumulator
    followed by [current] without its copy of [o]. *)
Theorem merge_dedup (a o c : jsstring) :
  50 < length o -> length o <= 200 ->
  (forall j, length o < j -> ~ overlapAt 500 (a ++ o) (o ++ c) j) ->
  mergeEditedChunks [a ++ o; o ++ c] = a ++ o ++ c.
Proof.
  intros Hmin Hmax Hlongest.
  pose proof (length_nonneg a) as Ha. pose proof (length_nonneg c) as Hc.
  assert (Hat : overlapAt 500 (a ++ o) (o ++ c) (length o)).
  { split; [rewrite length_app; lia |].
    exists [], (firstn (Z.to_nat (Z.min 500 (length (o ++ c)))
                        - List.length o) c).
    unfold suffixOf, prefixOf.
    replace (Z.to_nat (length (a ++ o) - length o)) with (List.length a)
      by (rewrite length_app; unfold length; lia).
    rewrite skipn_app_exact, firstn_app. simpl. f_equal.
    apply firstn_all2. rewrite length_app. unfold length in *. lia. }
  assert (Hbest : bestOverlap (a ++ o) (o ++ c) = length o).
  { destruct (bestOverlap_spec (a ++ o) (o ++ c)) as [[_ Hno] | [Hb Hgreatest]].
    - elim (Hno _ Hat).
    - apply Hgreatest in Hat.
      destruct (Z.eq_dec (bestOverlap (a ++ o) (o ++ c)) (length o))
        as [E | Hne]; [assumption |].
      elim (Hlongest (bestOverlap (a ++ o) (o ++ c))); [lia | assumption]. }
  cbn [mergeEditedChunks fold_left]. unfold mergeStep. cbv zeta.
  rewrite Hbest.
  destruct (Z.eqb_spec (length o) 0) as [E | _]; [lia |].
  rewrite substring_prefix by (rewrite length_app; lia).
  replace (Z.to_nat (length (a ++ o) - length o)) with (List.length a)
    by (rewrite length_app; unfold length; lia).
  rewrite firstn_app_exact. reflexivity.
Qed.

Lemma merge_dedup_witness :
  mergeEditedChunks [lit "A " ++ echoed; echoed ++ lit " again"]
  = lit "A " ++ echoed ++ lit " again".
Proof.
  apply (merge_dedup (lit "A ") echoed (lit " again")).
  - unfold length. simpl. lia.
  - unfold length. simpl. lia.
  - intros j Hj [Hrange Hocc].
    apply indexOf_found in Hocc. apply Z.leb_le in Hocc.
    assert (Hcases : j = 56 \/ j = 57)
      by (unfold length in Hj, Hrange; simpl in Hj, Hrange; lia).
    destruct Hcases as [-> | ->]; vm_compute in Hocc; discriminate.
Defined.

(** C7 -- Overlap search, a boundary on which a leading window of 200
    characters fails: the last 60 characters of the accumulator occur in
    [current] at offset 300, inside its first 500 characters and outside
    its first 200; the code detects an overlap of 60 and truncates the
    accumulator, while no length passes the test with a window of 200. *)
Lemma merge_overlap_search_counterexample :
  bestOverlap tailText lateEchoText = 60
  /\ mergeEditedChunks [tailText; lateEchoText] = lateEchoText
  /\ ~ (exists j, overlapAt 200 tailText lateEchoText j).
Proof.
  split; [vm_compute; reflexivity |].
  split; [vm_compute; reflexivity |].
  intros (j & Hrange & Hocc).
  apply indexOf_found in Hocc. apply Z.leb_le in Hocc.
  assert (Hcases : j = 51 \/ j = 52 \/ j = 53 \/ j = 54 \/ j = 55
                   \/ j = 56 \/ j = 57 \/ j = 58 \/ j = 59 \/ j = 60)
    by (unfold length in Hrange; simpl in Hrange; lia).
  repeat (destruct Hcases as [-> | Hcases];
          [vm_compute in Hocc; discriminate |]).
  subst j. vm_compute in Hocc. discriminate.
Qed.

(** C7 -- Overlap search, as the code has it.  [mergeEditedChunks] folds
    [mergeStep] over the boundaries.  At a boundary an overlap is detected
    if and only if, for some [j] from min(200, available length) down to
    51, the last [j] characters of the accumulator occur in the leading
    min(500, len(current)) characters of [current]; at the greatest such
    [j] exactly [j] characters are cut off the end of the accumulator and
    [current] is appended in full. *)
Theorem merge_overlap_search :
  (forall first rest,
      mergeEditedChunks (first :: rest) = fold_left mergeStep rest first)
  /\ (forall merged current,
         (bestOverlap merged current <> 0
          <-> exists j, overlapAt 500 merged current j)
         /\ (forall j,
                overlapAt 500 merged current j ->
                (forall j', overlapAt 500 merged current j' -> j' <= j) ->
                bestOverlap merged current = j
                /\ mergeStep merged current
                   = prefixOf (length merged - j) merged ++ current)).
Proof.
  split; [exact mergeEditedChunks_fold |].
  intros merged current.
  pose proof (length_nonneg merged) as Hlen.
  destruct (bestOverlap_spec merged current) as [[H0 Hno] | [Hb Hgreatest]].
  - split.
    + split; [intros H; contradiction | intros [j Hj]; elim (Hno j Hj)].
    + intros j Hj _. elim (Hno j Hj).
  - assert (Hpos : bestOverlap merged current <> 0) by (destruct Hb; lia).
    split.
    + split; [intros _; eauto | intros _; assumption].
    + intros j Hj Hmax.
      assert (E : bestOverlap merged current = j).
      { apply Hgreatest in Hj. apply Hmax in Hb. lia. }
      split; [assumption |].
      unfold mergeStep. cbv zeta. rewrite E in *.
      destruct (Z.eqb_spec j 0) as [Hz | _]; [contradiction |].
      destruct Hb as [Hrange _].
      rewrite substring_prefix by lia. reflexivity.
Qed.

Lemma merge_overlap_search_witness :
  bestOverlap tailText lateEchoText = 60
  /\ mergeStep tailText lateEchoText
     = prefixOf (length tailText - 60) tailText ++ lateEchoText.
Proof.
  destruct merge_overlap_search as [_ Hstep].
  destruct (Hstep tailText lateEchoText) as [_ Hcut].
  apply Hcut.
  - split; [unfold length; simpl; lia |].
    apply indexOf_found. apply Z.leb_le. vm_compute. reflexivity.
  - intros j' [Hrange _]. unfold length in Hrange. simpl in Hrange. lia.
Defined.

(** C10 -- Length of the merge.  For every non-empty list of [k] edited
    texts, the length of the merge is at least the sum of the lengths of
    the texts minus [200 * (k - 1)] and at most that sum plus [k - 1]: a
    boundary removes at most 200 characters from the end of the
    accumulator, or inserts at most one space, and appends the next text
    in full. *)
Theorem merge_length_bounds (editedChunks : list jsstring) :
  editedChunks <> [] ->
  let k := Z.of_nat (List.length editedChunks) in
  totalLength editedChunks - 200 * (k - 1)
  <= length (mergeEditedChunks editedChunks)
  <= totalLength editedChunks + (k - 1).
Proof.
  destruct editedChunks as [| first rest]; [contradiction |].
  intros _ k. rewrite mergeEditedChunks_fold.
  pose proof (fold_mergeStep_length rest first) as H.
  unfold k. cbn [totalLength fold_right List.length].
  fold (totalLength rest). lia.
Qed.

Lemma merge_length_bounds_witness :
  totalLength [lit "a"; lit "b"] - 200 * (2 - 1)
  <= length (mergeEditedChunks [lit "a"; lit "b"])
  <= totalLength [lit "a"; lit "b"] + (2 - 1).
Proof.
  apply (merge_length_bounds [lit "a"; lit "b"]). discriminate.
Defined.

(** * The length validator *)

(** C3 -- Empty original.  The count taken by [validateEditedLength] is
    the number of pieces of [split], which is 1 for the empty text, where
    [countWords] counts 0 words.  So an empty original and the edited text
    ["word"] are both counted as one word: the report has [ratio = 100] and
    [isValid = true] for every tolerance [t >= 0], where the empty original
    should give [isValid = false] and [ratio = 0].  For two empty texts the
    report has [ratio = 100], and [isValid = true] for [t >= 0]. *)
Theorem validate_empty_original (t : float) :
  tokenCount [] = 1%nat
  /\ countWords [] = 0%nat
  /\ validateEditedLength [] (lit "word") 10
     = {| isValid := true; ratio := 100; message := Suitable 1 1 100 |}
  /\ isValid (validateEditedLength [] (lit "word") t) = (0 <=? t)%float
  /\ ratio (validateEditedLength [] (lit "word") t) = 100%float
  /\ isValid (validateEditedLength [] [] t) = (0 <=? t)%float
  /\ ratio (validateEditedLength [] [] t) = 100%float.
Proof. repeat split. Qed.

(** * The splitter: the metadata of the chunks *)

Section ChunkChain.

Variable txt : jsstring.
Variables maxChunkSize overlapSize : Z.
Hypothesis maxChunkSize_positive : 0 < maxChunkSize.
Hypothesis overlapSize_nonneg : 0 <= overlapSize.

Lemma substring_empty (s : jsstring) (a : Z) : substring s a a = [].
Proof.
  unfold substring.
  replace (Z.max (clamp (length s) a) (clamp (length s) a)
           - Z.min (clamp (length s) a) (clamp (length s) a)) with 0 by lia.
  reflexivity.
Qed.

Lemma substring_whole (s : jsstring) : substring s 0 (length s) = s.
Proof.
  pose proof (length_nonneg s).
  rewrite substring_prefix by lia. apply firstn_all2. lengths.
Qed.

Lemma chunkLoop_chained (fuel : nat) :
  forall (position : Z) (previousOverlap : jsstring) (chunks : list SmartChunk),
    0 <= position <= length txt ->
    length txt - position <= Z.of_nat fuel ->
    exists pushed,
      chunkLoop fuel txt maxChunkSize overlapSize position previousOverlap chunks
      = Some (chunks ++ pushed)
      /\ chained txt overlapSize position previousOverlap
           (Z.of_nat (List.length chunks)) pushed.
Proof.
  induction fuel as [| fuel IH];
    intros position previousOverlap chunks Hpos Hfuel;
    rewrite chunkLoop_eq;
    destruct (Z.ltb_spec position (length txt)) as [Hlt | Hge];
    try lia.
  - exists []. rewrite app_nil_r. split; [reflexivity | simpl; lia].
  - cbv zeta.
    destruct (chooseChunkEnd_bounds txt maxChunkSize overlapSize
                maxChunkSize_positive overlapSize_nonneg position)
      as [Hce _]; [lia |].
    set (chunkEnd := chooseChunkEnd txt maxChunkSize overlapSize position) in *.
    set (chunk := makeChunk txt overlapSize position chunkEnd previousOverlap chunks).
    destruct (IH chunkEnd
                (substringFrom (text chunk)
                   (Z.max 0 (length (text chunk) - overlapSize)))
                (chunks ++ [chunk])) as (pushed & Hrun & Hchain);
      try lia.
    exists (chunk :: pushed). rewrite Hrun, <- app_assoc. split; [reflexivity |].
    cbn [chained]. repeat split; try reflexivity; try (simpl; lia).
    + simpl. destruct (Z.ltb_spec chunkEnd (length txt)) as [_ | Hend];
        [reflexivity |].
      replace (Z.min (chunkEnd + overlapSize) (length txt)) with chunkEnd by lia.
      symmetry. apply substring_empty.
    + rewrite List.length_app in Hchain.
      change (List.length [chunk]) with 1%nat in Hchain.
      replace (Z.of_nat (List.length chunks) + 1)
        with (Z.of_nat (List.length chunks + 1)) by lia.
      pose proof (length_nonneg (text chunk)) as Hlen.
      rewrite substringFrom_suffix in Hchain by lia.
      unfold suffixOf.
      replace (Z.to_nat
                 (length (text chunk)
                  - Z.min overlapSize (length (text chunk))))
        with (Z.to_nat (Z.max 0 (length (text chunk) - overlapSize))) by lia.
      exact Hchain.
  - exists []. rewrite app_nil_r. split; [reflexivity | simpl; lia].
Qed.

Lemma chained_setTotalChunks (n : Z) (chunks : list SmartChunk) :
  forall position previousOverlap i,
    chained txt overlapSize position previousOverlap i chunks ->
    chained txt overlapSize position previousOverlap i
      (map (setTotalChunks n) chunks).
Proof.
  induction chunks as [| c chunks IH]; intros position previousOverlap i H.
  - exact H.
  - cbn [chained map] in *.
    destruct H as (H1 & H2 & H3 & H4 & H5 & H6 & H7).
    repeat split; try assumption; try (simpl; lia).
    apply IH. exact H7.
Qed.

(** The split of the text is a chain from offset 0, and every chunk holds
    the number of chunks. *)
Lemma chunkTextSmart_chained (fuel : nat) :
  (List.length txt <= fuel)%nat ->
  exists chunks,
    chunkTextSmart fuel txt maxChunkSize overlapSize = Some chunks
    /\ chained txt overlapSize 0 [] 0 chunks
    /\ Forall (fun c => totalChunks (metadata c)
                        = Z.of_nat (List.length chunks)) chunks.
Proof.
  intros Hfuel. unfold chunkTextSmart.
  pose proof (length_nonneg txt) as Hlen.
  destruct (Z.leb_spec (length txt) maxChunkSize) as [Hshort | Hlong].
  - exists [singleChunk txt]. split; [reflexivity |]. split.
    + cbn [chained]. repeat split; try reflexivity; try (simpl; lia).
      * simpl. symmetry. apply substring_whole.
      * simpl.
        replace (Z.min (length txt + overlapSize) (length txt))
          with (length txt) by lia.
        symmetry. apply substring_empty.
    + constructor; [reflexivity | constructor].
  - destruct (chunkLoop_chained fuel 0 [] []) as (pushed & Hrun & Hchain);
      [lia | lengths |].
    rewrite Hrun. simpl.
    exists (map (setTotalChunks (Z.of_nat (List.length pushed))) pushed).
    split; [reflexivity |]. split.
    + apply chained_setTotalChunks. exact Hchain.
    + rewrite List.length_map. apply Forall_map.
      apply Forall_forall. intros c _. reflexivity.
Qed.

End ChunkChain.

Section ChainFacts.

Variable txt : jsstring.
Variable overlapSize : Z.
Hypothesis overlapSize_nonneg : 0 <= overlapSize.

Lemma suffixOf_length_le (j : Z) (s : jsstring) :
  0 <= j -> length (suffixOf j s) <= j.
Proof.
  intros Hj. unfold suffixOf, length. rewrite List.length_skipn. lia.
Qed.

(** What a chain tells of its chunk of rank [i] and of the chunk that
    follows it. *)
Lemma chained_nth (chunks : list SmartChunk) :
  forall (position : Z) (previousOverlap : jsstring) (i0 : Z) (i : nat)
         (c : SmartChunk),
    length previousOverlap <= overlapSize ->
    chained txt overlapSize position previousOverlap i0 chunks ->
    nth_error chunks i = Some c ->
    index (metadata c) = i0 + Z.of_nat i
    /\ position <= startPosition (metadata c)
    /\ startPosition (metadata c) <= endPosition (metadata c) <= length txt
    /\ text c = substring txt (startPosition (metadata c))
                  (endPosition (metadata c))
    /\ overlapEnd (metadata c)
       = substring txt (endPosition (metadata c))
           (Z.min (endPosition (metadata c) + overlapSize) (length txt))
    /\ length (overlapStart (metadata c)) <= overlapSize
    /\ (i = 0%nat ->
        startPosition (metadata c) = position
        /\ overlapStart (metadata c) = previousOverlap)
    /\ (forall c', nth_error chunks (S i) = Some c' ->
          startPosition (metadata c') = endPosition (metadata c)
          /\ overlapStart (metadata c')
             = suffixOf (Z.min overlapSize (length (text c))) (text c))
    /\ (nth_error chunks (S i) = None -> endPosition (metadata c) = length txt).
Proof.
  induction chunks as [| a chunks IH];
    intros position previousOverlap i0 i c Hprev Hchain Hnth.
  - destruct i; discriminate.
  - cbn [chained] in Hchain.
    destruct Hchain as (H1 & H2 & H3 & H4 & H5 & H6 & H7).
    destruct i as [| i].
    + injection Hnth as <-.
      split; [lia |]. split; [lia |].
      split; [rewrite H2; exact H3 |].
      split; [rewrite H2; exact H4 |].
      split; [exact H6 |].
      split; [rewrite H5; exact Hprev |].
      split; [intros _; split; assumption |].
      split.
      * intros c' Hc'. destruct chunks as [| b chunks]; [discriminate |].
        simpl in Hc'. injection Hc' as <-. cbn [chained] in H7.
        destruct H7 as (_ & K2 & _ & _ & K5 & _). split; assumption.
      * intros Hnone. destruct chunks as [| b chunks]; [| discriminate].
        simpl in H7. exact H7.
    + simpl in Hnth.
      destruct (IH (endPosition (metadata a))
                  (suffixOf (Z.min overlapSize (length (text a))) (text a))
                  (i0 + 1) i c) as (G1 & G2 & G3 & G4 & G5 & G6 & _ & G8 & G9);
        try assumption.
      { pose proof (length_nonneg (text a)).
        pose proof (suffixOf_length_le
                      (Z.min overlapSize (length (text a))) (text a)). lia. }
      repeat split; try assumption; try lia; try discriminate.
      * apply (G8 c'). assumption.
      * apply (G8 c'). assumption.
Qed.

End ChainFacts.

(** * The splitter: indices, offsets and overlaps of the chunks *)

(** X1 -- Indices and count.  For valid sizes, the chunk of rank [i] of a split
    has [index = i], and every chunk has [totalChunks] equal to the number
    of chunks. *)
Theorem chunk_indices (fuel : nat) (txt : jsstring)
  (maxChunkSize overlapSize : Z) :
  0 < maxChunkSize -> 0 <= overlapSize -> (List.length txt <= fuel)%nat ->
  exists chunks,
    chunkTextSmart fuel txt maxChunkSize overlapSize = Some chunks
    /\ forall i c, nth_error chunks i = Some c ->
         index (metadata c) = Z.of_nat i
         /\ totalChunks (metadata c) = Z.of_nat (List.length chunks).
Proof.
  intros Hmax Hov Hfuel.
  destruct (chunkTextSmart_chained txt maxChunkSize overlapSize Hmax Hov
              fuel Hfuel) as (chunks & Hrun & Hchain & Htotal).
  exists chunks. split; [assumption |]. intros i c Hnth. split.
  - destruct (chained_nth txt overlapSize Hov chunks 0 [] 0 i c)
      as (H & _); try assumption; try (simpl; lia).
  - rewrite Forall_forall in Htotal. apply Htotal.
    eapply nth_error_In. exact Hnth.
Qed.

Lemma chunk_indices_witness :
  exists chunks,
    chunkTextSmart 6 lineBreakText 1 0 = Some chunks
    /\ forall i c, nth_error chunks i = Some c ->
         index (metadata c) = Z.of_nat i
         /\ totalChunks (metadata c) = Z.of_nat (List.length chunks).
Proof.
  apply (chunk_indices 6 lineBreakText 1 0); [lia | lia | simpl; lia].
Defined.

(** X2 -- Offsets.  For valid sizes, the chunks tile the offsets of the text:
    the first chunk starts at 0, each chunk starts where the chunk before
    it ends, the last chunk ends at [text.length], and the [text] of a
    chunk is [text.substring(startPosition, endPosition)]. *)
Theorem chunk_offsets (fuel : nat) (txt : jsstring)
  (maxChunkSize overlapSize : Z) :
  0 < maxChunkSize -> 0 <= overlapSize -> (List.length txt <= fuel)%nat ->
  exists chunks,
    chunkTextSmart fuel txt maxChunkSize overlapSize = Some chunks
    /\ forall i c, nth_error chunks i = Some c ->
         (0 <= startPosition (metadata c) <= endPosition (metadata c)
          /\ endPosition (metadata c) <= length txt)
         /\ text c = substring txt (startPosition (metadata c))
                       (endPosition (metadata c))
         /\ (i = 0%nat -> startPosition (metadata c) = 0)
         /\ (forall c', nth_error chunks (S i) = Some c' ->
               startPosition (metadata c') = endPosition (metadata c))
         /\ (nth_error chunks (S i) = None ->
             endPosition (metadata c) = length txt).
Proof.
  intros Hmax Hov Hfuel.
  destruct (chunkTextSmart_chained txt maxChunkSize overlapSize Hmax Hov
              fuel Hfuel) as (chunks & Hrun & Hchain & _).
  exists chunks. split; [assumption |]. intros i c Hnth.
  destruct (chained_nth txt overlapSize Hov chunks 0 [] 0 i c)
    as (_ & G2 & G3 & G4 & _ & _ & G7 & G8 & G9);
    try assumption; try (simpl; lia).
  split; [lia |]. split; [assumption |].
  split; [intros Hi; apply G7; assumption |].
  split; [| assumption].
  intros c' Hc'. apply (G8 c'). assumption.
Qed.

Lemma chunk_offsets_witness :
  exists chunks,
    chunkTextSmart 6 lineBreakText 1 0 = Some chunks
    /\ forall i c, nth_error chunks i = Some c ->
         (0 <= startPosition (metadata c) <= endPosition (metadata c)
          /\ endPosition (metadata c) <= length lineBreakText)
         /\ text c = substring lineBreakText (startPosition (metadata c))
                       (endPosition (metadata c))
         /\ (i = 0%nat -> startPosition (metadata c) = 0)
         /\ (forall c', nth_error chunks (S i) = Some c' ->
               startPosition (metadata c') = endPosition (metadata c))
         /\ (nth_error chunks (S i) = None ->
             endPosition (metadata c) = length lineBreakText).
Proof.
  apply (chunk_offsets 6 lineBreakText 1 0); [lia | lia | simpl; lia].
Defined.

Lemma firstn_min_length (s : jsstring) (n : nat) :
  firstn (Nat.min n (List.length s)) s = firstn n s.
Proof.
  destruct (Nat.le_gt_cases n (List.length s)) as [H | H].
  - now rewrite Nat.min_l.
  - rewrite Nat.min_r by lia. rewrite !firstn_all2; [reflexivity | lia | lia].
Qed.

(** The characters of [txt] from offset [a] to [min(a + n, txt.length)] are
    the first [n] characters that follow offset [a]. *)
Lemma substring_following (txt : jsstring) (a n : Z) :
  0 <= a <= length txt -> 0 <= n ->
  substring txt a (Z.min (a + n) (length txt))
  = prefixOf n (skipn (Z.to_nat a) txt).
Proof.
  intros Ha Hn. rewrite substring_in_range by lia. unfold prefixOf.
  rewrite <- (firstn_min_length (skipn (Z.to_nat a) txt) (Z.to_nat n)).
  f_equal. rewrite List.length_skipn. lengths.
Qed.

(** X3 -- Overlaps.  For valid sizes, in every chunk [overlapStart] and
    [overlapEnd] have at most [overlapSize] characters; [overlapEnd] is made
    of the first [overlapSize] characters of the text that follow the
    chunk, and is empty in the last chunk; [overlapStart] is empty in the
    first chunk, and in each later chunk it is made of the last
    [overlapSize] characters of the chunk before it (of the whole chunk
    when it is shorter). *)
Theorem chunk_overlaps (fuel : nat) (txt : jsstring)
  (maxChunkSize overlapSize : Z) :
  0 < maxChunkSize -> 0 <= overlapSize -> (List.length txt <= fuel)%nat ->
  exists chunks,
    chunkTextSmart fuel txt maxChunkSize overlapSize = Some chunks
    /\ forall i c, nth_error chunks i = Some c ->
         length (overlapStart (metadata c)) <= overlapSize
         /\ length (overlapEnd (metadata c)) <= overlapSize
         /\ overlapEnd (metadata c)
            = prefixOf overlapSize
                (skipn (Z.to_nat (endPosition (metadata c))) txt)
         /\ (i = 0%nat -> overlapStart (metadata c) = [])
         /\ (forall c', nth_error chunks (S i) = Some c' ->
               overlapStart (metadata c')
               = suffixOf (Z.min overlapSize (length (text c))) (text c))
         /\ (nth_error chunks (S i) = None -> overlapEnd (metadata c) = []).
Proof.
  intros Hmax Hov Hfuel.
  destruct (chunkTextSmart_chained txt maxChunkSize overlapSize Hmax Hov
              fuel Hfuel) as (chunks & Hrun & Hchain & _).
  exists chunks. split; [assumption |]. intros i c Hnth.
  destruct (chained_nth txt overlapSize Hov chunks 0 [] 0 i c)
    as (_ & G2 & G3 & _ & G5 & G6 & G7 & G8 & G9);
    try assumption; try (simpl; lia).
  assert (Hend : overlapEnd (metadata c)
                 = prefixOf overlapSize
                     (skipn (Z.to_nat (endPosition (metadata c))) txt))
    by (rewrite G5; apply substring_following; lia).
  split; [assumption |].
  split.
  { rewrite Hend. unfold prefixOf, length.
    rewrite List.length_firstn. lia. }
  split; [assumption |].
  split; [intros Hi; apply G7; assumption |].
  split; [intros c' Hc'; apply (G8 c'); assumption |].
  intros Hlast. rewrite G5, (G9 Hlast).
  replace (Z.min (length txt + overlapSize) (length txt))
    with (length txt) by lia.
  apply substring_empty.
Qed.

Lemma chunk_overlaps_witness :
  exists chunks,
    chunkTextSmart 6 lineBreakText 1 2 = Some chunks
    /\ forall i c, nth_error chunks i = Some c ->
         length (overlapStart (metadata c)) <= 2
         /\ length (overlapEnd (metadata c)) <= 2
         /\ overlapEnd (metadata c)
            = prefixOf 2
                (skipn (Z.to_nat (endPosition (metadata c))) lineBreakText)
         /\ (i = 0%nat -> overlapStart (metadata c) = [])
         /\ (forall c', nth_error chunks (S i) = Some c' ->
               overlapStart (metadata c')
               = suffixOf (Z.min 2 (length (text c))) (text c))
         /\ (nth_error chunks (S i) = None -> overlapEnd (metadata c) = []).
Proof.
  apply (chunk_overlaps 6 lineBreakText 1 2); [lia | lia | simpl; lia].
Defined.

(** * The splitter: texts that are not split, and the sizes of the chunks *)

(** X4 -- A text of at most [maxChunkSize + overlapSize] characters is returned
    as one chunk that holds it, with index 0, [totalChunks = 1], the
    offsets 0 and [text.length] and empty overlaps, through the shortcut or
    through the loop, whose first chunk absorbs the whole text. *)
Theorem short_text_single_chunk (fuel : nat) (txt : jsstring)
  (maxChunkSize overlapSize : Z) :
  0 < maxChunkSize -> (1 <= fuel)%nat ->
  length txt <= maxChunkSize + overlapSize ->
  chunkTextSmart fuel txt maxChunkSize overlapSize = Some [singleChunk txt].
Proof.
  intros Hmax Hfuel Hlen. unfold chunkTextSmart.
  destruct (Z.leb_spec (length txt) maxChunkSize) as [H | Hlong];
    [reflexivity |].
  destruct fuel as [| fuel]; [lia |].
  rewrite chunkLoop_eq.
  destruct (Z.ltb_spec 0 (length txt)) as [_ | H]; [| lia].
  cbv zeta.
  assert (Hend : chooseChunkEnd txt maxChunkSize overlapSize 0 = length txt).
  { unfold chooseChunkEnd.
    destruct (Z.leb_spec (length txt - 0) (maxChunkSize + overlapSize));
      [reflexivity | lia]. }
  rewrite Hend, chunkLoop_eq, Z.ltb_irrefl. simpl.
  unfold makeChunk, setTotalChunks, singleChunk. simpl.
  rewrite Z.ltb_irrefl, substring_whole. reflexivity.
Qed.

Lemma short_text_single_chunk_witness :
  chunkTextSmart 1 lineBreakText 4 2 = Some [singleChunk lineBreakText].
Proof.
  apply (short_text_single_chunk 1 lineBreakText 4 2);
    [lia | lia | unfold length; simpl; lia].
Defined.

Lemma chooseChunkEnd_lower (txt : jsstring) (maxChunkSize overlapSize : Z)
  (position : Z) :
  0 < maxChunkSize -> 0 <= overlapSize -> 0 <= position < length txt ->
  chooseChunkEnd txt maxChunkSize overlapSize position < length txt ->
  position + leastCut maxChunkSize
  <= chooseChunkEnd txt maxChunkSize overlapSize position.
Proof.
  intros Hmax Hov Hpos. unfold chooseChunkEnd, leastCut.
  destruct (Z.leb_spec (length txt - position) (maxChunkSize + overlapSize))
    as [Htail | Hlong]; [lia |].
  destruct (positive_value (bestOf (paragraphBreaks _))) as [b |] eqn:Eb.
  - apply bestOf_some in Eb as (_ & Hb & _). lia.
  - destruct (positive_value (bestOf (sentenceBreaks _))) as [b |] eqn:Es.
    + apply bestOf_some in Es as (_ & Hb & _). lia.
    + lia.
Qed.

(** In a chain whose chunks are cut by [chooseChunkEnd] and are not empty,
    every chunk but the last has at least [leastCut] characters. *)
Lemma chained_count (txt : jsstring) (maxChunkSize overlapSize : Z)
  (chunks : list SmartChunk) :
  0 < maxChunkSize -> 0 <= overlapSize ->
  forall position previousOverlap i,
    0 <= position ->
    chained txt overlapSize position previousOverlap i chunks ->
    Forall (fun c => startPosition (metadata c) < endPosition (metadata c)
                     /\ endPosition (metadata c)
                        = chooseChunkEnd txt maxChunkSize overlapSize
                            (startPosition (metadata c))) chunks ->
    chunks <> [] ->
    (Z.of_nat (List.length chunks) - 1) * leastCut maxChunkSize
    <= length txt - position.
Proof.
  intros Hmax Hov.
  induction chunks as [| c chunks IH];
    intros position previousOverlap i Hpos Hchain Hall Hne; [contradiction |].
  cbn [chained] in Hchain.
  destruct Hchain as (_ & H2 & H3 & _ & _ & _ & H7).
  inversion Hall as [| c0 l0 [Hlt Hcut] Hall']; subst c0 l0.
  destruct chunks as [| c2 chunks].
  - simpl. lia.
  - assert (Hnext := H7). cbn [chained] in Hnext.
    destruct Hnext as (_ & K2 & K3 & _).
    inversion Hall' as [| c0 l0 [Hlt2 _] _]; subst c0 l0.
    assert (Hcutlow : startPosition (metadata c) + leastCut maxChunkSize
                      <= endPosition (metadata c)).
    { rewrite Hcut. apply chooseChunkEnd_lower; try assumption; lia. }
    specialize (IH (endPosition (metadata c)) _ _ ltac:(lia) H7 Hall'
                  ltac:(discriminate)).
    change (List.length (c :: c2 :: chunks))
      with (S (List.length (c2 :: chunks))).
    rewrite Nat2Z.inj_succ. unfold Z.succ.
    replace (Z.of_nat (List.length (c2 :: chunks)) + 1 - 1)
      with ((Z.of_nat (List.length (c2 :: chunks)) - 1) + 1) by lia.
    rewrite Z.mul_add_distr_r. lia.
Qed.

Lemma concat_length_le (bound : Z) (l : list jsstring) :
  Forall (fun s => length s <= bound) l ->
  length (List.concat l) <= Z.of_nat (List.length l) * bound.
Proof.
  induction 1 as [| s l Hs _ IH].
  - simpl. unfold length. simpl. lia.
  - cbn [List.concat List.length]. rewrite length_app, Nat2Z.inj_succ. lia.
Qed.

(** X5 -- Sizes and number of the chunks.  For valid sizes, every chunk other
    than the last one has at least [min(maxChunkSize, max(maxChunkSize -
    2000, 0) + 3)] characters, so a split into [k] chunks has
    [(k - 1) * leastCut <= text.length]; and since no chunk has more than
    [maxChunkSize + max(overlapSize, 2000)] characters,
    [text.length <= k * (maxChunkSize + max(overlapSize, 2000))]. *)
Theorem chunk_count_bounds (fuel : nat) (txt : jsstring)
  (maxChunkSize overlapSize : Z) :
  0 < maxChunkSize -> 0 <= overlapSize -> (List.length txt <= fuel)%nat ->
  exists chunks,
    chunkTextSmart fuel txt maxChunkSize overlapSize = Some chunks
    /\ Forall (fun c => endPosition (metadata c) < length txt ->
                        leastCut maxChunkSize <= length (text c)) chunks
    /\ (Z.of_nat (List.length chunks) - 1) * leastCut maxChunkSize
       <= length txt
    /\ length txt
       <= Z.of_nat (List.length chunks)
          * (maxChunkSize + Z.max overlapSize 2000).
Proof.
  intros Hmax Hov Hfuel.
  destruct (chunkTextSmart_total txt maxChunkSize overlapSize Hmax Hov
              fuel Hfuel) as (chunks & Hrun & Hcat & Hsize & Hne & Hcut).
  destruct (chunkTextSmart_chained txt maxChunkSize overlapSize Hmax Hov
              fuel Hfuel) as (chunks' & Hrun' & Hchain & _).
  rewrite Hrun in Hrun'. injection Hrun' as <-.
  exists chunks. split; [assumption |].
  pose proof (length_nonneg txt) as Hlen.
  assert (Hnonnil : chunks <> []).
  { intros ->. simpl in Hchain. unfold chunkTextSmart in Hrun.
    destruct (Z.leb_spec (length txt) maxChunkSize); [discriminate | lia]. }
  split; [| split].
  - apply Forall_forall. intros c Hin Hnotlast.
    rewrite Forall_forall in Hcut. destruct (Hcut c Hin) as [Hstart Hend].
    apply In_nth_error in Hin as [i Hnth].
    destruct (chained_nth txt overlapSize Hov chunks 0 [] 0 i c)
      as (_ & _ & G3 & G4 & _); try assumption; try (simpl; lia).
    rewrite G4, substring_length by lia.
    assert (Hpos : startPosition (metadata c) < length txt) by lia.
    pose proof (chooseChunkEnd_lower txt maxChunkSize overlapSize
                  (startPosition (metadata c)) Hmax Hov ltac:(lia)) as Hlow.
    rewrite <- Hend in Hlow. specialize (Hlow Hnotlast). lia.
  - destruct txt as [| ch rest] eqn:Etxt.
    + unfold chunkTextSmart in Hrun.
      change (length [] <=? maxChunkSize) with (0 <=? maxChunkSize) in Hrun.
      destruct (Z.leb_spec 0 maxChunkSize); [| lia].
      injection Hrun as <-. simpl. lia.
    + rewrite <- Etxt in *.
      assert (Htxt : txt <> []) by (rewrite Etxt; discriminate).
      specialize (Hne Htxt).
      pose proof (chained_count txt maxChunkSize overlapSize chunks Hmax Hov
                    0 [] 0 ltac:(lia) Hchain) as Hcount.
      rewrite Z.sub_0_r in Hcount. apply Hcount; [| assumption].
      apply Forall_forall. intros c Hin.
      rewrite Forall_forall in Hne, Hcut.
      destruct (Hne c Hin) as [_ Hlt]. destruct (Hcut c Hin) as [_ Hend].
      split; assumption.
  - rewrite <- Hcat at 1. rewrite <- (List.length_map text chunks).
    apply concat_length_le. apply Forall_map. assumption.
Qed.

Lemma chunk_count_bounds_witness :
  exists chunks,
    chunkTextSmart 6 lineBreakText 1 0 = Some chunks
    /\ Forall (fun c => endPosition (metadata c) < length lineBreakText ->
                        leastCut 1 <= length (text c)) chunks
    /\ (Z.of_nat (List.length chunks) - 1) * leastCut 1
       <= length lineBreakText
    /\ length lineBreakText
       <= Z.of_nat (List.length chunks) * (1 + Z.max 0 2000).
Proof.
  apply (chunk_count_bounds 6 lineBreakText 1 0); [lia | lia | simpl; lia].
Defined.

(** * The merger: what is kept and what is removed *)

Lemma Occurs_length (p s : jsstring) : Occurs p s -> length p <= length s.
Proof.
  intros (before & after & ->). rewrite !length_app.
  pose proof (length_nonneg before). pose proof (length_nonneg after). lia.
Qed.

Lemma suffixOf_length (j : Z) (s : jsstring) :
  0 <= j <= length s -> length (suffixOf j s) = j.
Proof.
  intros Hj. unfold suffixOf, length in *. rewrite List.length_skipn. lia.
Qed.

Lemma prefixOf_length_le (n : Z) (s : jsstring) :
  length (prefixOf n s) <= length s.
Proof. unfold prefixOf, length. rewrite List.length_firstn. lia. Qed.

(** No overlap is detected in a chunk of at most 50 characters. *)
Lemma bestOverlap_short (merged currentChunk : jsstring) :
  length currentChunk <= 50 -> bestOverlap merged currentChunk = 0.
Proof.
  intros Hshort.
  destruct (bestOverlap_spec merged currentChunk) as [[H _] | [[Hj Hocc] _]];
    [assumption |].
  apply Occurs_length in Hocc.
  rewrite suffixOf_length in Hocc by lia.
  pose proof (prefixOf_length_le
                (Z.min 500 (length currentChunk)) currentChunk). lia.
Qed.

(** X6 -- The last text.  The merge of a non-empty list of texts ends with the
    last text of the list, in full. *)
Theorem merge_keeps_last (editedChunks : list jsstring) :
  editedChunks <> [] ->
  exists front,
    mergeEditedChunks editedChunks = front ++ last editedChunks [].
Proof.
  destruct editedChunks as [| first rest]; [contradiction |]. intros _.
  rewrite mergeEditedChunks_fold. revert first.
  induction rest as [| cur rest IH]; intros first.
  - exists []. reflexivity.
  - cbn [fold_left]. destruct rest as [| next rest].
    + cbn [fold_left last]. unfold mergeStep. cbv zeta.
      destruct (bestOverlap first cur =? 0); eexists; reflexivity.
    + destruct (IH (mergeStep first cur)) as [front H].
      exists front. rewrite H. reflexivity.
Qed.

Lemma merge_keeps_last_witness :
  exists front,
    mergeEditedChunks [tailText; lateEchoText]
    = front ++ last [tailText; lateEchoText] [].
Proof.
  apply (merge_keeps_last [tailText; lateEchoText]). discriminate.
Defined.

(** X7 -- What a boundary removes.  At a boundary the accumulator is kept up to
    a suffix that is removed, and [current] is appended in full.  Either
    nothing is removed, and at most one space is put between the two; or
    the removed suffix has 51 to 200 characters and occurs in the first
    500 characters of [current], and nothing is put between the two. *)
Theorem merge_removes_only_echo (merged current : jsstring) :
  exists kept removed separator,
    merged = kept ++ removed
    /\ mergeStep merged current = kept ++ separator ++ current
    /\ ((removed = [] /\ (separator = [] \/ separator = [SPACE]))
        \/ (separator = []
            /\ 51 <= length removed <= 200
            /\ Occurs removed
                 (prefixOf (Z.min 500 (length current)) current))).
Proof.
  unfold mergeStep. cbv zeta.
  destruct (bestOverlap_spec merged current) as [[H0 _] | [[Hj Hocc] _]].
  - rewrite H0. simpl.
    exists merged, [], (if insertsSpace merged current then [SPACE] else []).
    split; [now rewrite app_nil_r |]. split.
    + destruct (insertsSpace merged current);
        [now rewrite <- app_assoc | reflexivity].
    + left. split; [reflexivity |].
      destruct (insertsSpace merged current); auto.
  - pose proof (length_nonneg merged) as Hlen.
    destruct (Z.eqb_spec (bestOverlap merged current) 0) as [E | _]; [lia |].
    exists (firstn (Z.to_nat (length merged - bestOverlap merged current))
              merged),
           (suffixOf (bestOverlap merged current) merged), [].
    split; [unfold suffixOf; now rewrite firstn_skipn |]. split.
    + rewrite substring_prefix by lia. reflexivity.
    + right. split; [reflexivity |]. split; [| assumption].
      rewrite suffixOf_length by lia. lia.
Qed.

(** X8 -- Short texts.  When every text after the first has at most 50
    characters, no overlap is detected at any boundary: the merge is the
    concatenation of the texts, with a space at each boundary where neither
    side has a line feed or a space, and no character of a text is
    removed.  In particular an empty text is not neutral: merging it
    appends a space to an accumulator that does not end with a line feed or
    a space. *)
Theorem merge_short_texts (first : jsstring) (rest : list jsstring) :
  Forall (fun current => length current <= 50) rest ->
  mergeEditedChunks (first :: rest) = fold_left spaced rest first
  /\ totalLength (first :: rest)
     <= length (mergeEditedChunks (first :: rest)).
Proof.
  intros Hshort. rewrite mergeEditedChunks_fold.
  assert (Hfold : forall merged,
            fold_left mergeStep rest merged = fold_left spaced rest merged
            /\ length merged + totalLength rest
               <= length (fold_left spaced rest merged)).
  { induction Hshort as [| cur rest Hcur _ IH]; intros merged.
    - simpl. split; [reflexivity | lia].
    - cbn [fold_left totalLength fold_right]. fold (totalLength rest).
      assert (Hstep : mergeStep merged cur = spaced merged cur).
      { unfold mergeStep. cbv zeta. rewrite bestOverlap_short by assumption.
        reflexivity. }
      rewrite Hstep. destruct (IH (spaced merged cur)) as [H1 H2].
      split; [assumption |].
      assert (length merged + length cur <= length (spaced merged cur)).
      { unfold spaced. destruct (insertsSpace merged cur);
          rewrite !length_app; unfold length; simpl; lia. }
      lia. }
  destruct (Hfold first) as [H1 H2]. rewrite H1. split; [reflexivity |].
  cbn [totalLength fold_right]. fold (totalLength rest). assumption.
Qed.

Lemma merge_short_texts_witness :
  mergeEditedChunks [lit "a"; []] = fold_left spaced [[]] (lit "a")
  /\ totalLength [lit "a"; []] <= length (mergeEditedChunks [lit "a"; []]).
Proof.
  apply (merge_short_texts (lit "a") [[]]).
  constructor; [unfold length; simpl; lia | constructor].
Defined.

(** * Word counts *)

Section WordFacts.

Lemma nonempty_rev (cur : jsstring) :
  (0 <? length (rev cur)) = match cur with [] => false | _ :: _ => true end.
Proof.
  unfold length. rewrite length_rev. destruct cur; reflexivity.
Qed.

(** The pieces of [split] that are not empty are the words. *)
Lemma split_words (s : jsstring) :
  forall (cur : jsstring) (inRun : bool),
    (inRun = true -> cur = []) ->
    List.length
      (filter (fun word => 0 <? length word) (splitWhiteSpaceFrom cur inRun s))
    = match cur with
      | [] => wordStarts false s
      | _ :: _ => S (wordStarts true s)
      end.
Proof.
  induction s as [| c s IH]; intros cur inRun Hrun.
  - cbn [splitWhiteSpaceFrom filter]. rewrite nonempty_rev.
    destruct cur; reflexivity.
  - cbn [splitWhiteSpaceFrom wordStarts].
    destruct (isWhiteSpace c) eqn:Ec.
    + destruct inRun.
      * rewrite (Hrun eq_refl). rewrite IH by reflexivity. reflexivity.
      * cbn [filter]. rewrite nonempty_rev.
        destruct cur; cbn [List.length]; rewrite IH by reflexivity;
          reflexivity.
    + rewrite IH by discriminate. destruct cur; reflexivity.
Qed.

Lemma trimStart_split (s : jsstring) :
  exists blank, s = blank ++ trimStart s /\ forallb isWhiteSpace blank = true.
Proof.
  induction s as [| c s (blank & IH1 & IH2)].
  - exists []. split; reflexivity.
  - cbn [trimStart]. destruct (isWhiteSpace c) eqn:Ec.
    + exists (c :: blank). split; [simpl; now f_equal |].
      simpl. now rewrite Ec.
    + exists []. split; reflexivity.
Qed.

Lemma trimStart_head (s : jsstring) (c : char) (rest : jsstring) :
  trimStart s = c :: rest -> isWhiteSpace c = false.
Proof.
  induction s as [| a s IH]; [discriminate |].
  cbn [trimStart]. destruct (isWhiteSpace a) eqn:Ea; [exact IH |].
  intros H. injection H as <- _. exact Ea.
Qed.

Lemma forallb_rev (f : char -> bool) (s : jsstring) :
  forallb f (rev s) = forallb f s.
Proof.
  induction s as [| c s IH]; [reflexivity |].
  simpl. rewrite forallb_app, IH. simpl. rewrite andb_true_r. apply andb_comm.
Qed.

Lemma wordStarts_blank (blank : jsstring) (inWord : bool) :
  forallb isWhiteSpace blank = true -> wordStarts inWord blank = 0%nat.
Proof.
  revert inWord. induction blank as [| c blank IH]; intros inWord H;
    [reflexivity |].
  simpl in H. apply andb_true_iff in H as [Hc H].
  cbn [wordStarts]. rewrite Hc. now apply IH.
Qed.

Lemma wordStarts_leading (blank s : jsstring) :
  forallb isWhiteSpace blank = true ->
  wordStarts false (blank ++ s) = wordStarts false s.
Proof.
  induction blank as [| c blank IH]; intros H; [reflexivity |].
  simpl in H. apply andb_true_iff in H as [Hc H].
  cbn [app wordStarts]. rewrite Hc. now apply IH.
Qed.

Lemma wordStarts_trailing (s blank : jsstring) (inWord : bool) :
  forallb isWhiteSpace blank = true ->
  wordStarts inWord (s ++ blank) = wordStarts inWord s.
Proof.
  intros H. revert inWord.
  induction s as [| c s IH]; intros inWord.
  - now apply wordStarts_blank.
  - cbn [app wordStarts]. now rewrite !IH.
Qed.

Lemma wordStarts_trim (s : jsstring) :
  wordStarts false (trim s) = wordStarts false s.
Proof.
  unfold trim.
  destruct (trimStart_split s) as (blank1 & H1 & B1).
  destruct (trimStart_split (rev (trimStart s))) as (blank2 & H2 & B2).
  rewrite H1 at 2. rewrite wordStarts_leading by assumption.
  rewrite <- (rev_involutive (trimStart s)) at 2.
  rewrite H2 at 2. rewrite rev_app_distr.
  rewrite wordStarts_trailing; [reflexivity |].
  now rewrite forallb_rev.
Qed.

Lemma countWords_wordStarts (txt : jsstring) :
  countWords txt = wordStarts false txt.
Proof.
  unfold countWords, splitWhiteSpace.
  rewrite split_words by discriminate. apply wordStarts_trim.
Qed.

End WordFacts.

Section TokenFacts.

(** [split] gives pieces that are not empty when the text it reads does
    not end with white space, and either a piece is being read or the text
    does not start a new piece with white space. *)
Lemma split_nonempty (s : jsstring) :
  forall (cur : jsstring) (inRun : bool),
    (s = [] -> cur <> []) ->
    (forall front c, s = front ++ [c] -> isWhiteSpace c = false) ->
    (inRun = false ->
     cur <> [] \/ exists c s', s = c :: s' /\ isWhiteSpace c = false) ->
    Forall (fun word => word <> []) (splitWhiteSpaceFrom cur inRun s).
Proof.
  induction s as [| c s IH]; intros cur inRun Hnil Hlast Hfirst.
  - constructor; [| constructor].
    intros E. apply (Hnil eq_refl).
    rewrite <- (rev_involutive cur), E. reflexivity.
  - assert (Hlast' : forall front c', s = front ++ [c'] ->
                                      isWhiteSpace c' = false).
    { intros front c' ->. apply (Hlast (c :: front) c'). reflexivity. }
    cbn [splitWhiteSpaceFrom]. destruct (isWhiteSpace c) eqn:Ec.
    + assert (Hs : s <> []).
      { intros ->. specialize (Hlast [] c eq_refl). congruence. }
      destruct inRun.
      * apply IH; [contradiction | assumption | discriminate].
      * assert (Hcur : cur <> []).
        { destruct (Hfirst eq_refl) as [H | (c' & s' & H & Hc')];
            [assumption |].
          injection H as <- _. congruence. }
        constructor.
        -- intros E. apply Hcur.
           rewrite <- (rev_involutive cur), E. reflexivity.
        -- apply IH; [contradiction | assumption | discriminate].
    + apply IH; [discriminate | assumption |].
      intros _. left. discriminate.
Qed.

Lemma split_length_pos (s : jsstring) (cur : jsstring) (inRun : bool) :
  (1 <= List.length (splitWhiteSpaceFrom cur inRun s))%nat.
Proof.
  revert cur inRun. induction s as [| c s IH]; intros cur inRun.
  - simpl. lia.
  - cbn [splitWhiteSpaceFrom].
    destruct (isWhiteSpace c); [destruct inRun |];
      try apply IH. cbn [List.length]. lia.
Qed.

(** A trimmed text is empty, or starts and ends with characters that are
    not white space. *)
Lemma trim_ends (s : jsstring) :
  trim s = []
  \/ ((exists c rest, trim s = c :: rest /\ isWhiteSpace c = false)
      /\ forall front c, trim s = front ++ [c] -> isWhiteSpace c = false).
Proof.
  unfold trim.
  destruct (trimStart (rev (trimStart s))) as [| c v] eqn:Ev; [now left |].
  right. pose proof (trimStart_head _ _ _ Ev) as Hc. split.
  - destruct (trimStart_split (rev (trimStart s))) as (blank & H & _).
    rewrite Ev in H.
    assert (Hu : trimStart s = rev (c :: v) ++ rev blank).
    { rewrite <- (rev_involutive (trimStart s)), H, rev_app_distr.
      reflexivity. }
    destruct (rev (c :: v)) as [| a rest] eqn:Er.
    + apply (f_equal (@List.length char)) in Er.
      rewrite length_rev in Er. discriminate.
    + exists a, rest. split; [reflexivity |].
      simpl in Hu. apply (trimStart_head _ _ _ Hu).
  - intros front c' H.
    apply (f_equal (@rev char)) in H.
    rewrite rev_involutive, rev_app_distr in H. simpl in H.
    injection H as <- _. exact Hc.
Qed.

Lemma filter_all (f : jsstring -> bool) (l : list jsstring) :
  Forall (fun w => f w = true) l -> filter f l = l.
Proof.
  induction 1 as [| w l Hw _ IH]; [reflexivity |].
  simpl. now rewrite Hw, IH.
Qed.

Lemma tokenCount_max (txt : jsstring) :
  tokenCount txt = Nat.max 1 (countWords txt).
Proof.
  unfold tokenCount, countWords, splitWhiteSpace.
  destruct (trim_ends txt) as [E | [(c & rest & E & Hc) Hlast]].
  - rewrite E. reflexivity.
  - assert (Hall : Forall (fun word => word <> [])
                     (splitWhiteSpaceFrom [] false (trim txt))).
    { apply split_nonempty.
      - intros H. rewrite E in H. discriminate.
      - assumption.
      - intros _. right. now exists c, rest. }
    rewrite filter_all.
    + pose proof (split_length_pos (trim txt) [] false). lia.
    + eapply Forall_impl; [| exact Hall].
      intros w Hw. destruct w; [contradiction | reflexivity].
Qed.

Lemma wordStarts_app (a s : jsstring) (inWord : bool) :
  wordStarts inWord (a ++ s)
  = (wordStarts inWord a + wordStarts (inWordAfter inWord a) s)%nat.
Proof.
  revert inWord. induction a as [| c a IH]; intros inWord; [reflexivity |].
  cbn [app wordStarts inWordAfter].
  destruct (isWhiteSpace c); cbn [negb]; rewrite IH; lia.
Qed.

Lemma wordStarts_inWord (s : jsstring) :
  (wordStarts true s <= wordStarts false s <= S (wordStarts true s))%nat.
Proof.
  destruct s as [| c s]; [simpl; lia |].
  cbn [wordStarts]. destruct (isWhiteSpace c); lia.
Qed.

Lemma wordStarts_any (s : jsstring) (inWord : bool) :
  (wordStarts inWord s <= wordStarts false s <= S (wordStarts inWord s))%nat.
Proof.
  destruct inWord; [apply wordStarts_inWord | lia].
Qed.

Lemma countWords_app_bounds (a b : jsstring) :
  (countWords (a ++ b) <= countWords a + countWords b
   /\ countWords a + countWords b <= S (countWords (a ++ b)))%nat.
Proof.
  rewrite !countWords_wordStarts, wordStarts_app.
  pose proof (wordStarts_any b (inWordAfter false a)). lia.
Qed.

Lemma totalWords_concat (l : list jsstring) :
  l <> [] ->
  (countWords (List.concat l) <= totalWords l
   /\ totalWords l + 1 <= countWords (List.concat l) + List.length l)%nat.
Proof.
  induction l as [| a l IH]; [contradiction |]. intros _.
  destruct l as [| b l].
  - simpl. rewrite app_nil_r. lia.
  - specialize (IH ltac:(discriminate)).
    change (List.concat (a :: b :: l)) with (a ++ List.concat (b :: l)).
    change (totalWords (a :: b :: l))
      with (countWords a + totalWords (b :: l))%nat.
    pose proof (countWords_app_bounds a (List.concat (b :: l))).
    cbn [List.length] in *. lia.
Qed.

End TokenFacts.

(** X10 -- Words.  [countWords] counts the runs of characters that are not white
    space: its value is the number of characters that are not white space
    and that come first in the text or follow a white space. *)
Theorem countWords_word_starts (txt : jsstring) :
  countWords txt = wordStarts false txt.
Proof. apply countWords_wordStarts. Qed.

(** X11 -- No word.  [countWords] gives 0 exactly on the texts made of white
    space only, the empty text among them. *)
Theorem countWords_zero_iff (txt : jsstring) :
  countWords txt = 0%nat <-> forallb isWhiteSpace txt = true.
Proof.
  rewrite countWords_wordStarts. split.
  - induction txt as [| c txt IH]; [reflexivity |].
    cbn [wordStarts forallb]. destruct (isWhiteSpace c); [exact IH |].
    discriminate.
  - apply wordStarts_blank.
Qed.

(** X12 -- Concatenation.  The word count of [a ++ b] is the sum of the word
    counts of [a] and [b], or one less (when a word runs across the
    junction); it is the sum when a white space stands between the two. *)
Theorem countWords_concat (a b : jsstring) :
  (countWords (a ++ b) <= countWords a + countWords b
   /\ countWords a + countWords b <= S (countWords (a ++ b))
   /\ forall w, isWhiteSpace w = true ->
        countWords (a ++ w :: b) = countWords a + countWords b)%nat.
Proof.
  destruct (countWords_app_bounds a b) as [H1 H2].
  split; [assumption |]. split; [assumption |].
  intros w Hw. rewrite !countWords_wordStarts, wordStarts_app.
  cbn [wordStarts]. rewrite Hw. reflexivity.
Qed.

(** X13 -- The count of the validator.  The number of pieces that
    [validateEditedLength] takes as the word count of a text is
    [countWords] of the text, except on a text without any word, where it
    is 1: it is never 0. *)
Theorem tokenCount_countWords (txt : jsstring) :
  tokenCount txt = Nat.max 1 (countWords txt)
  /\ (1 <= tokenCount txt)%nat.
Proof.
  pose proof (tokenCount_max txt). split; [assumption | lia].
Qed.

(** X14 -- Words of the chunks.  For valid sizes, the word counts of the chunks
    of a split add up to the word count of the text, plus at most one for
    each boundary (a word cut by a boundary is counted on both sides). *)
Theorem chunk_word_counts (fuel : nat) (txt : jsstring)
  (maxChunkSize overlapSize : Z) :
  0 < maxChunkSize -> 0 <= overlapSize -> (List.length txt <= fuel)%nat ->
  exists chunks,
    chunkTextSmart fuel txt maxChunkSize overlapSize = Some chunks
    /\ (countWords txt <= totalWords (map text chunks)
        /\ totalWords (map text chunks) + 1
           <= countWords txt + List.length chunks)%nat.
Proof.
  intros Hmax Hov Hfuel.
  destruct (chunkTextSmart_total txt maxChunkSize overlapSize Hmax Hov
              fuel Hfuel) as (chunks & Hrun & Hcat & _).
  exists chunks. split; [assumption |].
  assert (Hne : map text chunks <> []).
  { destruct chunks; [| discriminate]. unfold chunkTextSmart in Hrun.
    destruct (Z.leb_spec (length txt) maxChunkSize) as [_ | Hlong];
      [discriminate |].
    simpl in Hcat. subst txt. unfold length in Hlong. simpl in Hlong. lia. }
  pose proof (totalWords_concat (map text chunks) Hne) as H.
  rewrite Hcat, List.length_map in H. exact H.
Qed.

Lemma chunk_word_counts_witness :
  exists chunks,
    chunkTextSmart 6 lineBreakText 1 0 = Some chunks
    /\ (countWords lineBreakText <= totalWords (map text chunks)
        /\ totalWords (map text chunks) + 1
           <= countWords lineBreakText + List.length chunks)%nat.
Proof.
  apply (chunk_word_counts 6 lineBreakText 1 0); [lia | lia | simpl; lia].
Defined.

(** * Numbers: the quotient of two counts *)

Section CountQuotients.

Lemma digits2_bound (m : positive) :
  forall k, 0 <= k -> Zpos m < 2 ^ k -> Zpos (digits2_pos m) <= k.
Proof.
  induction m as [m IH | m IH |]; intros k Hk Hlt; cbn [digits2_pos].
  - assert (k <> 0) by (intros ->; simpl in Hlt; lia).
    replace k with (Z.succ (k - 1)) in Hlt by lia.
    rewrite Z.pow_succ_r in Hlt by lia.
    specialize (IH (k - 1) ltac:(lia) ltac:(lia)). lia.
  - assert (k <> 0) by (intros ->; simpl in Hlt; lia).
    replace k with (Z.succ (k - 1)) in Hlt by lia.
    rewrite Z.pow_succ_r in Hlt by lia.
    specialize (IH (k - 1) ltac:(lia) ltac:(lia)). lia.
  - assert (k <> 0) by (intros ->; simpl in Hlt; lia). lia.
Qed.

Lemma digits2_iter_xO (m k : positive) :
  Zpos (digits2_pos (Pos.iter xO m k)) = Zpos (digits2_pos m) + Zpos k.
Proof.
  revert m. induction k as [| k IH] using Pos.peano_ind; intros m.
  - simpl. lia.
  - rewrite Pos.iter_succ. cbn [digits2_pos]. rewrite Pos2Z.inj_succ, IH. lia.
Qed.

Lemma binary_round_aux_exact (m : positive) (e : Z) :
  fexp prec emax (Zpos (digits2_pos m) + e) = e -> e <= 971 ->
  binary_round_aux prec emax false (Zpos m) e loc_Exact
  = S754_finite false m e.
Proof.
  intros Hfexp He. unfold binary_round_aux, shr_fexp.
  cbn [Zdigits2 shr_record_of_loc]. rewrite Hfexp, Z.sub_diag.
  cbn [shr shr_m loc_of_shr_record round_nearest_even Zdigits2 shr_record_of_loc].
  rewrite Hfexp, Z.sub_diag. cbn [shr shr_m].
  destruct (Z.leb_spec e (emax - prec)) as [_ | H]; [reflexivity |].
  unfold emax, prec in H. lia.
Qed.

Lemma binary_round_small (m : positive) :
  Zpos m < 2 ^ 53 ->
  exists m' e', binary_round prec emax false m 0 = S754_finite false m' e'.
Proof.
  intros Hm. pose proof (digits2_bound m 53 ltac:(lia) Hm) as Hd.
  unfold binary_round, shl_align.
  assert (Hf : fexp prec emax (Zpos (digits2_pos m) + 0)
               = Zpos (digits2_pos m) - 53).
  { unfold fexp, emin, prec, emax. lia. }
  rewrite Hf.
  destruct (Zpos (digits2_pos m) - 53 - 0) as [| d | d] eqn:Ed; try lia.
  - exists m, 0. apply binary_round_aux_exact; [| lia].
    unfold fexp, emin, prec, emax. lia.
  - exists (Pos.iter xO m d), (Zpos (digits2_pos m) - 53).
    apply binary_round_aux_exact; [| lia].
    rewrite digits2_iter_xO. unfold fexp, emin, prec, emax. lia.
Qed.

Lemma toNumber_finite (n : nat) :
  (1 <= n)%nat -> Z.of_nat n < 2 ^ 53 ->
  exists m e, Prim2SF (toNumber n) = S754_finite false m e.
Proof.
  intros Hn Hlt. unfold toNumber. rewrite of_uint63_spec.
  rewrite Uint63.of_Z_spec.
  rewrite Z.mod_small by (unfold wB; simpl; lia).
  destruct (Z.of_nat n) as [| p | p] eqn:E; try lia.
  cbn [binary_normalize]. apply binary_round_small. assumption.
Qed.

Lemma SFdiv_self (s : bool) (m : positive) (e : Z) :
  SFdiv prec emax (S754_finite s m e) (S754_finite s m e)
  = S754_finite false 4503599627370496 (-52).
Proof.
  unfold SFdiv, SFdiv_core_binary.
  rewrite !Z.sub_diag.
  change (Z.min (fexp prec emax 0) 0) with (-53).
  change (0 - -53) with 53.
  cbv iota.
  rewrite Z.shiftl_mul_pow2 by lia.
  assert (Hdiv : Z.div_eucl (Zpos m * 2 ^ 53) (Zpos m) = (2 ^ 53, 0)).
  { assert (H : Z.div_eucl (Zpos m * 2 ^ 53) (Zpos m)
                = ((Zpos m * 2 ^ 53) / Zpos m, (Zpos m * 2 ^ 53) mod Zpos m)).
    { unfold Z.div, Z.modulo.
      destruct (Z.div_eucl (Zpos m * 2 ^ 53) (Zpos m)); reflexivity. }
    rewrite H, (Z.mul_comm (Zpos m)), Z.div_mul, Z.mod_mul by lia.
    reflexivity. }
  rewrite Hdiv.
  assert (Hloc : new_location (Zpos m) 0 = loc_Exact).
  { unfold new_location, new_location_even, new_location_odd.
    destruct (Z.even (Zpos m)); reflexivity. }
  rewrite Hloc. destruct s; reflexivity.
Qed.

Lemma toNumber_div_self (n : nat) :
  (1 <= n)%nat -> Z.of_nat n < 2 ^ 53 ->
  (toNumber n / toNumber n)%float = 1%float.
Proof.
  intros Hn Hlt. apply Prim2SF_inj. rewrite div_spec.
  destruct (toNumber_finite n Hn Hlt) as (m & e & ->).
  unfold SF64div. rewrite SFdiv_self. reflexivity.
Qed.

Lemma toNumber_div_zero (n : nat) :
  (1 <= n)%nat -> Z.of_nat n < 2 ^ 53 ->
  (toNumber n / toNumber 0)%float = infinity.
Proof.
  intros Hn Hlt. apply Prim2SF_inj. rewrite div_spec.
  destruct (toNumber_finite n Hn Hlt) as (m & e & ->).
  reflexivity.
Qed.

Lemma toNumber_zero_div (n : nat) :
  (1 <= n)%nat -> Z.of_nat n < 2 ^ 53 ->
  (toNumber 0 / toNumber n)%float = 0%float.
Proof.
  intros Hn Hlt. apply Prim2SF_inj. rewrite div_spec.
  destruct (toNumber_finite n Hn Hlt) as (m & e & ->).
  reflexivity.
Qed.

Lemma wordStarts_le_length (s : jsstring) (inWord : bool) :
  (wordStarts inWord s <= List.length s)%nat.
Proof.
  revert inWord. induction s as [| c s IH]; intros inWord; [simpl; lia |].
  cbn [wordStarts List.length]. destruct (isWhiteSpace c).
  - specialize (IH false). lia.
  - specialize (IH true). destruct inWord; lia.
Qed.

Lemma countWords_le_length (txt : jsstring) :
  Z.of_nat (countWords txt) <= length txt.
Proof.
  rewrite countWords_wordStarts.
  pose proof (wordStarts_le_length txt false). lengths.
Qed.

End CountQuotients.

(** * The validator and the caller on equal and on empty counts *)

(** X15 -- Equal counts.  When the two texts have the same count of pieces, in
    particular when they are the same text, [validateEditedLength] reports
    [ratio = 100]; the edit is valid for every tolerance [t >= 0], and
    then the message is the one of a suitable length. *)
Theorem validate_equal_counts (originalText editedText : jsstring)
  (tolerancePercent : float) :
  length originalText < 2 ^ 53 ->
  tokenCount editedText = tokenCount originalText ->
  ratio (validateEditedLength originalText editedText tolerancePercent)
  = 100%float
  /\ isValid (validateEditedLength originalText editedText tolerancePercent)
     = (0 <=? tolerancePercent)%float
  /\ ((0 <=? tolerancePercent)%float = true ->
      message (validateEditedLength originalText editedText tolerancePercent)
      = Suitable (tokenCount originalText) (tokenCount originalText) 100).
Proof.
  intros Hlen Hsame. unfold validateEditedLength. cbv zeta. rewrite Hsame.
  assert (Hone : (toNumber (tokenCount originalText)
                  / toNumber (tokenCount originalText))%float = 1%float).
  { pose proof (tokenCount_max originalText) as Hmax.
    pose proof (countWords_le_length originalText) as Hle.
    apply toNumber_div_self; lia. }
  cbn [ratio isValid message]. rewrite Hone.
  split; [reflexivity |]. split; [reflexivity |].
  intros Hvalid.
  change (PrimFloat.abs (100 - 1 * 100)) with 0%float.
  rewrite Hvalid. reflexivity.
Qed.

Lemma validate_equal_counts_witness :
  ratio (validateEditedLength twoLinesText twoLinesText 10) = 100%float
  /\ isValid (validateEditedLength twoLinesText twoLinesText 10)
     = (0 <=? 10)%float
  /\ ((0 <=? 10)%float = true ->
      message (validateEditedLength twoLinesText twoLinesText 10)
      = Suitable (tokenCount twoLinesText) (tokenCount twoLinesText) 100).
Proof.
  apply (validate_equal_counts twoLinesText twoLinesText 10);
    [unfold length; simpl; lia | reflexivity].
Defined.

(** X16 -- The acceptance of an edit.  The text kept for a chunk is the text of
    the chunk or the reply of the agent.  A non-empty reply with the same
    number of words as the chunk is kept, also when both have no word.  A
    reply with words for a chunk without any word, and a reply without any
    word for a chunk with words, are replaced by the text of the chunk. *)
Theorem edit_acceptance (chunkText editedText : jsstring) :
  editedText <> [] ->
  length chunkText < 2 ^ 53 -> length editedText < 2 ^ 53 ->
  (acceptEdit chunkText (Response (Some editedText)) = chunkText
   \/ acceptEdit chunkText (Response (Some editedText)) = editedText)
  /\ (countWords editedText = countWords chunkText ->
      acceptEdit chunkText (Response (Some editedText)) = editedText)
  /\ (countWords chunkText = 0%nat -> countWords editedText <> 0%nat ->
      acceptEdit chunkText (Response (Some editedText)) = chunkText)
  /\ (countWords editedText = 0%nat -> countWords chunkText <> 0%nat ->
      acceptEdit chunkText (Response (Some editedText)) = chunkText).
Proof.
  intros Hne Hchunk Hedited.
  destruct editedText as [| c s]; [contradiction |].
  unfold acceptEdit. cbv beta iota zeta.
  remember (c :: s) as editedText eqn:Eedited.
  pose proof (countWords_le_length chunkText) as Hc.
  pose proof (countWords_le_length editedText) as He.
  split; [| split; [| split]].
  - destruct (15 <? _)%float; auto.
  - intros Hsame. rewrite Hsame.
    destruct (countWords chunkText) as [| n] eqn:En; [reflexivity |].
    rewrite toNumber_div_self by lia. reflexivity.
  - intros H0 Hpos. rewrite H0.
    rewrite toNumber_div_zero by lia. reflexivity.
  - intros H0 Hpos. rewrite H0.
    rewrite toNumber_zero_div by lia. reflexivity.
Qed.

Lemma edit_acceptance_witness :
  (acceptEdit (lit "a b") (Response (Some (lit "c d"))) = lit "a b"
   \/ acceptEdit (lit "a b") (Response (Some (lit "c d"))) = lit "c d")
  /\ (countWords (lit "c d") = countWords (lit "a b") ->
      acceptEdit (lit "a b") (Response (Some (lit "c d"))) = lit "c d")
  /\ (countWords (lit "a b") = 0%nat -> countWords (lit "c d") <> 0%nat ->
      acceptEdit (lit "a b") (Response (Some (lit "c d"))) = lit "a b")
  /\ (countWords (lit "c d") = 0%nat -> countWords (lit "a b") <> 0%nat ->
      acceptEdit (lit "a b") (Response (Some (lit "c d"))) = lit "a b").
Proof.
  apply (edit_acceptance (lit "a b") (lit "c d"));
    [discriminate | unfold length; simpl; lia | unfold length; simpl; lia].
Defined.

Lemma editLoop_unchanged (agent : nat -> SmartChunk -> AgentResponse)
  (chunks : list SmartChunk) :
  forall i,
    (forall j c, acceptEdit (text c) (agent j c) = text c) ->
    editLoop agent i chunks = map text chunks.
Proof.
  induction chunks as [| c chunks IH]; intros i H; [reflexivity |].
  cbn [editLoop map]. rewrite H, IH by assumption. reflexivity.
Qed.

Lemma acceptEdit_fallback (chunkText : jsstring) (response : AgentResponse) :
  response = Thrown \/ response = Response None
  \/ response = Response (Some []) \/ response = Response (Some chunkText) ->
  acceptEdit chunkText response = chunkText.
Proof.
  intros [-> | [-> | [-> | ->]]]; unfold acceptEdit; cbv zeta;
    try reflexivity.
  - destruct (15 <? _)%float; reflexivity.
  - destruct (15 <? _)%float; reflexivity.
  - destruct chunkText; destruct (15 <? _)%float; reflexivity.
Qed.

(** X17 -- An agent that edits nothing.  When, for every chunk, the call to the
    agent throws, or replies nothing, or replies the text of the chunk,
    [editManuscriptSmart] returns the merge of the texts of the chunks of
    the split with sizes 75000 and 1000; this is the text itself when
    these chunk texts are seamless. *)
Theorem edit_nothing (fuel : nat) (agent : nat -> SmartChunk -> AgentResponse)
  (txt : jsstring) :
  (List.length txt <= fuel)%nat ->
  (forall i c,
      agent i c = Thrown \/ agent i c = Response None
      \/ agent i c = Response (Some [])
      \/ agent i c = Response (Some (text c))) ->
  editManuscriptSmart fuel agent txt
  = Some (mergeEditedChunks (chunkTexts fuel txt 75000 1000))
  /\ (seamless (chunkTexts fuel txt 75000 1000) = true ->
      editManuscriptSmart fuel agent txt = Some txt).
Proof.
  intros Hfuel Hagent.
  destruct (chunkTextSmart_total txt 75000 1000 ltac:(lia) ltac:(lia)
              fuel Hfuel) as (chunks & Hrun & Hcat & _).
  unfold editManuscriptSmart, chunkTexts. rewrite Hrun.
  rewrite editLoop_unchanged
    by (intros j c; apply acceptEdit_fallback; apply Hagent).
  split; [reflexivity |].
  intros Hseamless. rewrite seamless_merge by assumption.
  now rewrite Hcat.
Qed.

Lemma edit_nothing_witness :
  editManuscriptSmart 5 (fun _ _ => Thrown) twoLinesText
  = Some (mergeEditedChunks (chunkTexts 5 twoLinesText 75000 1000))
  /\ (seamless (chunkTexts 5 twoLinesText 75000 1000) = true ->
      editManuscriptSmart 5 (fun _ _ => Thrown) twoLinesText
      = Some twoLinesText).
Proof.
  apply (edit_nothing 5 (fun _ _ => Thrown) twoLinesText);
    [simpl; lia | intros i c; now left].
Defined.

(** X9 -- The empty text in a merge.  An empty text is not neutral: merged
    after a text, it leaves a space at its end unless the text ends with a
    line feed or a space; merged before a text, it leaves a space at its
    start unless the text starts with a line feed or a space. *)
Theorem merge_empty_text (txt : jsstring) :
  mergeEditedChunks [txt; []]
  = (if endsWith txt [LF] || endsWith txt [SPACE] then txt
     else txt ++ [SPACE])
  /\ mergeEditedChunks [[]; txt]
     = (if startsWith txt [LF] || startsWith txt [SPACE] then txt
        else SPACE :: txt).
Proof.
  split.
  - cbn [mergeEditedChunks fold_left]. unfold mergeStep. cbv zeta.
    rewrite bestOverlap_short by (unfold length; simpl; lia).
    unfold insertsSpace. simpl.
    destruct (endsWith txt [LF]), (endsWith txt [SPACE]);
      simpl; now rewrite ?app_nil_r.
  - cbn [mergeEditedChunks fold_left]. unfold mergeStep. cbv zeta.
    change (bestOverlap [] txt) with 0. unfold insertsSpace.
    change (endsWith [] [LF]) with false.
    change (endsWith [] [SPACE]) with false.
    destruct (startsWith txt [LF]), (startsWith txt [SPACE]); reflexivity.
Qed.
